(** * connect-online: the pairing and relay gateway

    A shallow embedding of [apps/backend/src/app.gateway.ts] (class
    [AppGateway]) together with the part of the socket.io server the
    gateway drives: the connected sockets, their rooms and the three
    ways of addressing an [emit].  The gateway's two fields,
    [waitingQueue : string[]] and [socketToRoom : Map<string, string>],
    are a [list string] and a [gmap string string]; every handler is a
    function from the gateway state to the new state and the list of
    emissions it performed, in program order. *)

From stdpp Require Import gmap strings list fin_maps.

#[local] Set Warnings "-clear-no-such-hyp".

(** ** Outbound events *)

(** What the gateway passes to [emit]: the event name with its payload.
    The [signal] cargo is [unknown] in the source and never inspected;
    it is carried here in its wire form. *)
Inductive OutEvent : Type :=
  | waiting_for_match
  | match_found (roomId : string)
  | is_initiator (flag : bool)
  | signal (sender : string) (cargo : string)
  | receive_message (sender : string) (text : string)
  | partner_disconnected.

Global Instance OutEvent_eq_dec : EqDecision OutEvent.
Proof. solve_decision. Defined.

(** One call of [emit]: the sockets it reaches and what it carries. *)
Record Emission : Type := Emit {
  recipients : gset string;
  payload : OutEvent
}.

(** The events a given socket receives from a log of emissions. *)
Definition received (id : string) (log : list Emission) : list OutEvent :=
  payload <$> filter (λ e, id ∈ recipients e) log.

(** ** The socket.io server

    The transport is the socket.io library, which the gateway drives
    through [client] and [this.server].  What the gateway uses of it
    follows the library's behaviour with its in-memory adapter: on
    connect a socket joins the room named by its own identifier;
    [join] and [socketsLeave] take effect at once; [server.to(room)]
    reaches every member of the room and [client.to(room)] every member
    but the client; a closing socket leaves all its rooms before the
    [disconnect] handler runs.  A room with no member and a room that
    does not exist are not told apart ([members]). *)

Module Server.

(** [sockets] is the key set of [server.sockets.sockets]; [rooms] is
    the adapter's [rooms : Map<Room, Set<SocketId>>]. *)
Record t : Type := Make {
  sockets : gset string;
  rooms : gmap string (gset string)
}.

Definition empty : t := {| sockets := ∅; rooms := ∅ |}.

Definition members (room : string) (srv : t) : gset string :=
  default ∅ (rooms srv !! room).

(** [socket.join(room)]. *)
Definition join (id room : string) (srv : t) : t :=
  {| sockets := sockets srv;
     rooms := <[room := {[id]} ∪ members room srv]> (rooms srv) |}.

(** A new connection: the socket is registered and joins the room
    named by its own identifier. *)
Definition onconnect (id : string) (srv : t) : t :=
  join id id {| sockets := {[id]} ∪ sockets srv; rooms := rooms srv |}.

(** A closing connection leaves all its rooms and is unregistered;
    this happens before the [disconnect] handler runs. *)
Definition onclose (id : string) (srv : t) : t :=
  {| sockets := sockets srv ∖ {[id]};
     rooms := (λ s, s ∖ {[id]}) <$> rooms srv |}.

(** [server.sockets.sockets.get(id)]. *)
Definition get (id : string) (srv : t) : option string :=
  if decide (id ∈ sockets srv) then Some id else None.

(** [server.in(room).socketsLeave(room)]. *)
Definition socketsLeave (room : string) (srv : t) : t :=
  {| sockets := sockets srv; rooms := delete room (rooms srv) |}.

(** Addressing: [server.to(room)] reaches every member of the room,
    [client.to(room)] every member but the client, [client.emit] the
    client alone. *)
Definition to (room : string) (srv : t) : gset string := members room srv.

Definition to_except (client room : string) (srv : t) : gset string :=
  members room srv ∖ {[client]}.

Definition only (client : string) : gset string := {[client]}.

End Server.

(** ** The gateway *)

Record AppGateway : Type := Gateway {
  server : Server.t;
  waitingQueue : list string;
  socketToRoom : gmap string string
}.

Definition initial : AppGateway :=
  {| server := Server.empty; waitingQueue := []; socketToRoom := ∅ |}.

(** [Array.prototype.includes] and [Map.prototype.has]. *)
Definition includes (queue : list string) (id : string) : bool :=
  bool_decide (id ∈ queue).

Definition has (m : gmap string string) (id : string) : bool :=
  bool_decide (is_Some (m !! id)).

(** JavaScript truthiness of a string: every string but the empty one. *)
Definition truthy (s : string) : bool := negb (String.eqb s EmptyString).

(** The template literal [`room_${partnerId}_${client.id}`]. *)
Definition roomIdOf (partnerId clientId : string) : string :=
  "room_" +:+ partnerId +:+ "_" +:+ clientId.

(** [handleConnection] only logs. *)
Definition handleConnection (client : string) (gw : AppGateway)
  : AppGateway * list Emission := (gw, []).

Definition handleJoinQueue (client : string) (gw : AppGateway)
  : AppGateway * list Emission :=
  if has (socketToRoom gw) client || includes (waitingQueue gw) client
  then (gw, [])
  else
    match waitingQueue gw with
    | partnerId :: rest =>
        (* waitingQueue.length > 0; partnerId = waitingQueue.shift() *)
        if String.eqb partnerId client then
          ({| server := server gw;
              waitingQueue := rest ++ [client];
              socketToRoom := socketToRoom gw |}, [])
        else
          let roomId := roomIdOf partnerId client in
          let directory := <[client := roomId]> (socketToRoom gw) in
          if truthy partnerId then
            let directory := <[partnerId := roomId]> directory in
            let srv := Server.join client roomId (server gw) in
            let srv :=
              match Server.get partnerId srv with
              | Some partner => Server.join partner roomId srv
              | None => srv
              end in
            ({| server := srv;
                waitingQueue := rest;
                socketToRoom := directory |},
             [ Emit (Server.to roomId srv) (match_found roomId);
               Emit (Server.only client) (is_initiator true);
               Emit (Server.to partnerId srv) (is_initiator false) ])
          else
            ({| server := server gw;
                waitingQueue := rest;
                socketToRoom := directory |}, [])
    | [] =>
        ({| server := server gw;
            waitingQueue := waitingQueue gw ++ [client];
            socketToRoom := socketToRoom gw |},
         [ Emit (Server.only client) waiting_for_match ])
    end.

Definition handleUserLeave (socketId : string) (gw : AppGateway)
  : AppGateway * list Emission :=
  let queue := filter (λ id, id ≠ socketId) (waitingQueue gw) in
  match socketToRoom gw !! socketId with
  | Some roomId =>
      if truthy roomId then
        ({| server := Server.socketsLeave roomId (server gw);
            waitingQueue := queue;
            socketToRoom := delete socketId (socketToRoom gw) |},
         [ Emit (Server.to roomId (server gw)) partner_disconnected ])
      else
        ({| server := server gw;
            waitingQueue := queue;
            socketToRoom := socketToRoom gw |}, [])
  | None =>
      ({| server := server gw;
          waitingQueue := queue;
          socketToRoom := socketToRoom gw |}, [])
  end.

Definition handleDisconnect (client : string) (gw : AppGateway)
  : AppGateway * list Emission := handleUserLeave client gw.

Definition handleLeaveRoom (client : string) (gw : AppGateway)
  : AppGateway * list Emission := handleUserLeave client gw.

(** The body of a [signal] message, [{ target: string; signal: unknown }],
    and of a [send_message] message, [{ text: string }]. *)
Record SignalBody : Type := { target : string; signal_of : string }.
Record MessageBody : Type := { text_of : string }.

Definition handleSignal (client : string) (body : SignalBody) (gw : AppGateway)
  : AppGateway * list Emission :=
  match socketToRoom gw !! client with
  | Some roomId =>
      if truthy roomId then
        (gw, [ Emit (Server.to_except client roomId (server gw))
                    (signal client (signal_of body)) ])
      else (gw, [])
  | None => (gw, [])
  end.

Definition handleMessage (client : string) (body : MessageBody) (gw : AppGateway)
  : AppGateway * list Emission :=
  match socketToRoom gw !! client with
  | Some roomId =>
      if truthy roomId then
        (gw, [ Emit (Server.to_except client roomId (server gw))
                    (receive_message "partner" (text_of body)) ])
      else (gw, [])
  | None => (gw, [])
  end.

(** ** Inbound events and their dispatch *)

Inductive InEvent : Type :=
  | connect (id : string)
  | disconnect (id : string)
  | join_queue (id : string)
  | leave_room (id : string)
  | signal_in (id : string) (body : SignalBody)
  | send_message (id : string) (body : MessageBody).

Definition with_server (f : Server.t → Server.t) (gw : AppGateway) : AppGateway :=
  {| server := f (server gw);
     waitingQueue := waitingQueue gw;
     socketToRoom := socketToRoom gw |}.

(** Each event is processed to completion before the next one. *)
Definition dispatch (ev : InEvent) (gw : AppGateway)
  : AppGateway * list Emission :=
  match ev with
  | connect id => handleConnection id (with_server (Server.onconnect id) gw)
  | disconnect id => handleDisconnect id (with_server (Server.onclose id) gw)
  | join_queue id => handleJoinQueue id gw
  | leave_room id => handleLeaveRoom id gw
  | signal_in id body => handleSignal id body gw
  | send_message id body => handleMessage id body gw
  end.

Fixpoint run (evs : list InEvent) (gw : AppGateway)
  : AppGateway * list Emission :=
  match evs with
  | [] => (gw, [])
  | ev :: evs' =>
      let '(gw1, out1) := dispatch ev gw in
      let '(gw2, out2) := run evs' gw1 in
      (gw2, out1 ++ out2)
  end.

(** The state a run from the initial state ends in. *)
Definition final (evs : list InEvent) : AppGateway := (run evs initial).1.

(** ** Which way through [handleJoinQueue]

    The four ways the handler can leave: the early return, the
    defensive branch for a dequeued partner equal to the client, a
    match with the dequeued partner, and the append to the queue. *)
Inductive JoinPath : Type :=
  | Ignored
  | SelfGuard
  | Matched (partnerId : string)
  | Enqueued.

Definition joinPath (client : string) (gw : AppGateway) : JoinPath :=
  if has (socketToRoom gw) client || includes (waitingQueue gw) client
  then Ignored
  else
    match waitingQueue gw with
    | partnerId :: _ =>
        if String.eqb partnerId client then SelfGuard else Matched partnerId
    | [] => Enqueued
    end.

(** ** Connection states, derived from membership *)

Inductive ConnState : Type := Idle | Queued | Paired.

Definition in_state (gw : AppGateway) (id : string) (s : ConnState) : Prop :=
  match s with
  | Idle => (id ∉ waitingQueue gw) ∧ (socketToRoom gw !! id = None)
  | Queued => id ∈ waitingQueue gw
  | Paired => is_Some (socketToRoom gw !! id)
  end.

Global Instance in_state_dec gw id s : Decision (in_state gw id s).
Proof. destruct s; simpl; apply _. Defined.

(** Session symmetry, as the directory would show it: the two members
    of the session [room_p_c] are mapped to it together or not at all. *)
Definition symmetric (gw : AppGateway) : Prop :=
  ∀ p c, socketToRoom gw !! p = Some (roomIdOf p c) ↔
         socketToRoom gw !! c = Some (roomIdOf p c).

(** ** Socket identifiers

    socket.io draws every connection identifier as 20 characters (15
    random bytes in base64url), so all identifiers have one length and
    none is empty. *)
Definition ID_LENGTH : nat := 20.

Definition socket_id (id : string) : Prop := String.length id = ID_LENGTH.

Global Instance socket_id_dec id : Decision (socket_id id).
Proof. unfold socket_id. apply _. Defined.

(** ** Admissible events

    The transport hands the gateway a [connect] for an identifier that
    is not connected at that time, and any other event only for a
    connected socket. *)
Definition admissible (ev : InEvent) (gw : AppGateway) : Prop :=
  match ev with
  | connect id => socket_id id ∧ id ∉ Server.sockets (server gw)
  | disconnect id | join_queue id | leave_room id
  | signal_in id _ | send_message id _ => id ∈ Server.sockets (server gw)
  end.

Global Instance admissible_dec ev gw : Decision (admissible ev gw).
Proof. destruct ev; simpl; apply _. Defined.

Fixpoint admissible_run (evs : list InEvent) (gw : AppGateway) : Prop :=
  match evs with
  | [] => True
  | ev :: evs' => admissible ev gw ∧ admissible_run evs' (dispatch ev gw).1
  end.

Global Instance admissible_run_dec evs gw : Decision (admissible_run evs gw).
Proof. revert gw. induction evs; intros gw; simpl; apply _. Defined.

Inductive reachable : AppGateway → Prop :=
  | reachable_initial : reachable initial
  | reachable_step gw ev :
      reachable gw → admissible ev gw → reachable (dispatch ev gw).1.

(** [leave_room] and [disconnect] run the same handler; before the
    second the transport has already closed the socket. *)
Definition closing (closed : bool) (id : string) (srv : Server.t) : Server.t :=
  if closed then Server.onclose id srv else srv.

(** ** Invariants

    Of every run: these hold after any sequence of events whatever,
    admissible or not.  The queue has no duplicate, no identifier is both queued and
    in the directory, and every directory entry names a room made of
    two different identifiers, one of which is the key. *)
Record basic (gw : AppGateway) : Prop := {
  basic_nodup : NoDup (waitingQueue gw);
  basic_disjoint : ∀ id, id ∈ waitingQueue gw → socketToRoom gw !! id = None;
  basic_rooms : ∀ id roomId, socketToRoom gw !! id = Some roomId →
    ∃ p c, roomId = roomIdOf p c ∧ p ≠ c ∧ (id = p ∨ id = c)
}.

(** Of admissible runs: when the events are those the transport can deliver, the gateway
    state and the server's rooms stay linked: whoever is queued or in
    the directory is connected; a room holds only connected sockets,
    each of them either the socket the room is named after or one the
    directory maps to that room; and two sockets the directory maps to
    one room are both in it. *)
Record linked (gw : AppGateway) : Prop := {
  linked_ids : ∀ id, id ∈ Server.sockets (server gw) → socket_id id;
  linked_queue : ∀ id, id ∈ waitingQueue gw → id ∈ Server.sockets (server gw);
  linked_directory : ∀ id roomId,
    socketToRoom gw !! id = Some roomId → id ∈ Server.sockets (server gw);
  linked_own : ∀ id,
    id ∈ Server.sockets (server gw) → id ∈ Server.members id (server gw);
  linked_members : ∀ room id,
    id ∈ Server.members room (server gw) →
    id ∈ Server.sockets (server gw) ∧
    (room = id ∨ socketToRoom gw !! id = Some room);
  linked_rooms : ∀ id roomId,
    socketToRoom gw !! id = Some roomId →
    ∃ p c, roomId = roomIdOf p c ∧ socket_id p ∧ socket_id c ∧ p ≠ c ∧
           (id = p ∨ id = c);
  linked_pairs : ∀ a b roomId,
    a ≠ b → socketToRoom gw !! a = Some roomId → socketToRoom gw !! b = Some roomId →
    a ∈ Server.members roomId (server gw) ∧ b ∈ Server.members roomId (server gw)
}.

Definition consistent (gw : AppGateway) : Prop := basic gw ∧ linked gw.

(** What [handleJoinQueue] relies on about those who wait: no one waits
    twice, and each waiting identifier is a non-empty string, is
    connected and is not in the directory. *)
Definition waiting_well (gw : AppGateway) : Prop :=
  NoDup (waitingQueue gw) ∧
  Forall (λ id, truthy id = true ∧ id ∈ Server.sockets (server gw) ∧
                socketToRoom gw !! id = None) (waitingQueue gw).

Global Instance waiting_well_dec gw : Decision (waiting_well gw).
Proof. unfold waiting_well. apply _. Defined.

(** ** Sample connections *)

Definition sockA : string := "AAAAAAAAAAAAAAAAAAAA".
Definition sockB : string := "BBBBBBBBBBBBBBBBBBBB".
Definition sockC : string := "CCCCCCCCCCCCCCCCCCCC".
Definition sockD : string := "DDDDDDDDDDDDDDDDDDDD".

(** Two connections, paired: A waited, B joined. *)
Definition pairing : list InEvent :=
  [connect sockA; connect sockB; join_queue sockA; join_queue sockB].

(** Four connections, the first two waiting.  No run of the gateway
    ends here (see [queue_at_most_one]); the handler is FIFO all the
    same. *)
Definition two_waiting : AppGateway :=
  {| server := server (final [connect sockA; connect sockB; connect sockC; connect sockD]);
     waitingQueue := [sockA; sockB];
     socketToRoom := ∅ |}.

(** ** The page of a participant

    The part of the client page ([Page]) that the gateway's events
    drive: the [status] shown, the chat transcript [messages], the
    text being typed, and whether a peer connection is open
    ([peerConnectionRef.current] not null).  Camera, tracks and the
    WebRTC negotiation (the handlers of [is_initiator] and [signal],
    which touch none of these four) are left out. *)

Module Client.

Inductive Status : Type := idle | searching | connected.

Inductive Sender : Type := me | partner | system.

Record Message : Type := { sender : Sender; text : string }.

Record t : Type := Make {
  status : Status;
  messages : list Message;
  inputText : string;
  peer : bool
}.

(** The state of [useState] and [useRef] at mount. *)
Definition mounted : t :=
  {| status := idle; messages := []; inputText := EmptyString; peer := false |}.

(** What the page emits on its socket. *)
Inductive Emitted : Type :=
  | emit_join_queue
  | emit_leave_room
  | emit_send_message (body : MessageBody).

(** [cleanupConnection]: close and forget the peer connection. *)
Definition cleanupConnection (c : t) : t :=
  {| status := status c; messages := messages c;
     inputText := inputText c; peer := false |}.

Definition setStatus (s : Status) (c : t) : t :=
  {| status := s; messages := messages c;
     inputText := inputText c; peer := peer c |}.

Definition setMessages (f : list Message → list Message) (c : t) : t :=
  {| status := status c; messages := f (messages c);
     inputText := inputText c; peer := peer c |}.

Definition setInputText (s : string) (c : t) : t :=
  {| status := status c; messages := messages c;
     inputText := s; peer := peer c |}.

(** The [socket.on] handlers. *)
Definition on (ev : OutEvent) (c : t) : t :=
  match ev with
  | waiting_for_match => setStatus searching c
  | match_found _ => setMessages (λ _, []) (setStatus connected c)
  | is_initiator _ => c
  | signal _ _ => c
  | receive_message _ data_text =>
      setMessages (λ prev, prev ++ [ {| sender := partner; text := data_text |} ]) c
  | partner_disconnected =>
      setStatus idle
        (cleanupConnection
           (setMessages
              (λ prev, prev ++ [ {| sender := system; text := "Partner disconnected." |} ])
              c))
  end.

(** [handleJoin]: open a peer connection, emit [join_queue], show
    the search. *)
Definition handleJoin (c : t) : t * list Emitted :=
  (setStatus searching
     {| status := status c; messages := messages c;
        inputText := inputText c; peer := true |},
   [ emit_join_queue ]).

(** [handleLeave]: emit [leave_room], clean up, back to idle. *)
Definition handleLeave (c : t) : t * list Emitted :=
  (setStatus idle (cleanupConnection c), [ emit_leave_room ]).

(** [sendMessage]; [trim] stands for [String.prototype.trim]. *)
Definition sendMessage (trim : string → string) (c : t) : t * list Emitted :=
  if String.eqb (trim (inputText c)) EmptyString then (c, [])
  else
    (setInputText EmptyString
       (setMessages (λ prev, prev ++ [ {| sender := me; text := inputText c |} ]) c),
     [ emit_send_message {| text_of := inputText c |} ]).

(** What an emission of the page is at the gateway, for the socket
    with identifier [id]. *)
Definition to_server (id : string) (e : Emitted) : InEvent :=
  match e with
  | emit_join_queue => join_queue id
  | emit_leave_room => leave_room id
  | emit_send_message body => send_message id body
  end.

(** The page handles the events its socket receives, in order. *)
Definition deliver (events : list OutEvent) (c : t) : t :=
  foldl (λ c ev, on ev c) c events.

End Client.

(** ** Kinds of events *)

(** The two relay events, [signal] and [send_message]. *)
Definition is_relay (ev : InEvent) : bool :=
  match ev with
  | signal_in _ _ | send_message _ _ => true
  | _ => false
  end.

(** The two events that run [handleUserLeave]. *)
Definition is_departure (ev : InEvent) : bool :=
  match ev with
  | leave_room _ | disconnect _ => true
  | _ => false
  end.

(** Closed decidable facts about concrete states are settled by
    evaluating their decision procedure. *)
Ltac decide_by_evaluation :=
  apply (bool_decide_unpack _); vm_compute; exact I.

(** * Properties *)

(** ** Strings and room names *)

Lemma length_append (s t : string) :
  String.length (s +:+ t) = String.length s + String.length t.
Proof. induction s as [|a s IH]; simpl; [done | by rewrite IH]. Qed.

Lemma append_inj_prefix (s s' t t' : string) :
  String.length s = String.length s' → s +:+ t = s' +:+ t' → s = s' ∧ t = t'.
Proof.
  revert s'. induction s as [|a s IH]; intros [|a' s'] Hlen Heq;
    simpl in *; try discriminate; [done |].
  injection Heq as -> Heq. injection Hlen as Hlen.
  destruct (IH _ Hlen Heq) as [-> ->]. done.
Qed.

Lemma roomIdOf_length (p c : string) :
  String.length (roomIdOf p c) = 6 + String.length p + String.length c.
Proof. unfold roomIdOf. rewrite !length_append. simpl. lia. Qed.

Lemma roomIdOf_inj (p c p' c' : string) :
  String.length p = String.length p' →
  roomIdOf p c = roomIdOf p' c' → p = p' ∧ c = c'.
Proof.
  unfold roomIdOf. intros Hlen Heq.
  apply (append_inj_prefix "room_" "room_") in Heq as [_ Heq]; [|done].
  apply append_inj_prefix in Heq as [-> Heq]; [|done].
  by apply (append_inj_prefix "_" "_") in Heq as [_ ->].
Qed.

Lemma roomIdOf_truthy (p c : string) : truthy (roomIdOf p c) = true.
Proof. done. Qed.

Lemma socket_id_truthy (id : string) : socket_id id → truthy id = true.
Proof. by destruct id. Qed.

Lemma socket_id_not_room (id p c : string) : socket_id id → socket_id p → id ≠ roomIdOf p c.
Proof.
  unfold socket_id. intros Hid Hp Heq.
  apply (f_equal String.length) in Heq. rewrite roomIdOf_length in Heq. lia.
Qed.

(** ** Guards of the handlers *)

Lemma has_true (m : gmap string string) (id : string) :
  has m id = true ↔ is_Some (m !! id).
Proof. unfold has. by rewrite bool_decide_eq_true. Qed.

Lemma has_false (m : gmap string string) (id : string) :
  has m id = false ↔ m !! id = None.
Proof. unfold has. by rewrite bool_decide_eq_false, eq_None_not_Some. Qed.

Lemma includes_true (q : list string) (id : string) :
  includes q id = true ↔ id ∈ q.
Proof. unfold includes. by rewrite bool_decide_eq_true. Qed.

Lemma includes_false (q : list string) (id : string) :
  includes q id = false ↔ id ∉ q.
Proof. unfold includes. by rewrite bool_decide_eq_false. Qed.

Lemma join_guard_false (client : string) (gw : AppGateway) :
  has (socketToRoom gw) client || includes (waitingQueue gw) client = false ↔
  socketToRoom gw !! client = None ∧ client ∉ waitingQueue gw.
Proof. by rewrite orb_false_iff, has_false, includes_false. Qed.

Lemma join_guard_true (client : string) (gw : AppGateway) :
  has (socketToRoom gw) client || includes (waitingQueue gw) client = true ↔
  is_Some (socketToRoom gw !! client) ∨ client ∈ waitingQueue gw.
Proof. by rewrite orb_true_iff, has_true, includes_true. Qed.

(** The handler's result along each of its paths. *)
Lemma handleJoinQueue_ignored (client : string) (gw : AppGateway) :
  is_Some (socketToRoom gw !! client) ∨ client ∈ waitingQueue gw →
  handleJoinQueue client gw = (gw, []).
Proof.
  intros H%join_guard_true. unfold handleJoinQueue. by rewrite H.
Qed.

Lemma handleJoinQueue_enqueue (client : string) (gw : AppGateway) :
  socketToRoom gw !! client = None → waitingQueue gw = [] →
  handleJoinQueue client gw =
    ({| server := server gw;
        waitingQueue := [client];
        socketToRoom := socketToRoom gw |},
     [ Emit {[client]} waiting_for_match ]).
Proof.
  intros Hdir Hq. unfold handleJoinQueue.
  assert (has (socketToRoom gw) client || includes (waitingQueue gw) client = false)
    as -> by (apply join_guard_false; rewrite Hq; split; [done | apply not_elem_of_nil]).
  by rewrite Hq.
Qed.

Lemma handleJoinQueue_match (client partnerId : string) (rest : list string)
    (gw : AppGateway) :
  socketToRoom gw !! client = None → client ∉ waitingQueue gw →
  waitingQueue gw = partnerId :: rest → truthy partnerId = true →
  partnerId ∈ Server.sockets (server gw) →
  let roomId := roomIdOf partnerId client in
  let srv := Server.join partnerId roomId (Server.join client roomId (server gw)) in
  handleJoinQueue client gw =
    ({| server := srv;
        waitingQueue := rest;
        socketToRoom := <[partnerId := roomId]> (<[client := roomId]> (socketToRoom gw)) |},
     [ Emit (Server.to roomId srv) (match_found roomId);
       Emit {[client]} (is_initiator true);
       Emit (Server.to partnerId srv) (is_initiator false) ]).
Proof.
  intros Hdir Hnq Hq Htr Hlive. simpl. unfold handleJoinQueue.
  assert (has (socketToRoom gw) client || includes (waitingQueue gw) client = false)
    as -> by by apply join_guard_false.
  rewrite Hq.
  assert (partnerId ≠ client) as Hne.
  { intros ->. apply Hnq. rewrite Hq. left. }
  apply String.eqb_neq in Hne as ->. rewrite Htr.
  unfold Server.get. simpl. by rewrite decide_True.
Qed.

(** Case analysis on [handleJoinQueue]: the early return, the append,
    the match, and the match with a falsy partner.  The defensive
    branch does not occur: past the first guard the client is not in
    the queue, so it is not the dequeued head. *)
Lemma handleJoinQueue_cases (client : string) (gw : AppGateway)
    (P : AppGateway * list Emission → Prop) :
  (is_Some (socketToRoom gw !! client) ∨ client ∈ waitingQueue gw → P (gw, [])) →
  (socketToRoom gw !! client = None → waitingQueue gw = [] →
   P ({| server := server gw;
         waitingQueue := [client];
         socketToRoom := socketToRoom gw |},
      [ Emit {[client]} waiting_for_match ])) →
  (∀ partnerId rest,
     socketToRoom gw !! client = None → client ∉ waitingQueue gw →
     waitingQueue gw = partnerId :: rest → partnerId ≠ client →
     truthy partnerId = true →
     let roomId := roomIdOf partnerId client in
     let srv0 := Server.join client roomId (server gw) in
     let srv := match Server.get partnerId srv0 with
                | Some partner => Server.join partner roomId srv0
                | None => srv0
                end in
     P ({| server := srv;
           waitingQueue := rest;
           socketToRoom :=
             <[partnerId := roomId]> (<[client := roomId]> (socketToRoom gw)) |},
        [ Emit (Server.to roomId srv) (match_found roomId);
          Emit {[client]} (is_initiator true);
          Emit (Server.to partnerId srv) (is_initiator false) ])) →
  (∀ partnerId rest,
     socketToRoom gw !! client = None → client ∉ waitingQueue gw →
     waitingQueue gw = partnerId :: rest → partnerId ≠ client →
     truthy partnerId = false →
     P ({| server := server gw;
           waitingQueue := rest;
           socketToRoom := <[client := roomIdOf partnerId client]> (socketToRoom gw) |},
        [])) →
  P (handleJoinQueue client gw).
Proof.
  intros Hign Henq Hmatch Hhalf. unfold handleJoinQueue.
  destruct (has (socketToRoom gw) client || includes (waitingQueue gw) client) eqn:Hg.
  { apply Hign. by apply join_guard_true. }
  apply join_guard_false in Hg as [Hdir Hnq].
  destruct (waitingQueue gw) as [|partnerId rest] eqn:Hq.
  { by apply Henq. }
  assert (partnerId ≠ client) as Hne by (intros ->; apply Hnq; left).
  pose proof Hne as Hneb. apply String.eqb_neq in Hneb. rewrite Hneb.
  destruct (truthy partnerId) eqn:Htr.
  - by apply (Hmatch partnerId rest).
  - by apply (Hhalf partnerId rest).
Qed.

(** A [join_queue] is processed, not ignored, exactly for an Idle
    connection. *)
Lemma join_processed_iff_idle (client : string) (gw : AppGateway) :
  joinPath client gw ≠ Ignored ↔ in_state gw client Idle.
Proof.
  unfold joinPath. simpl.
  destruct (has _ _ || includes _ _) eqn:Hg.
  - apply join_guard_true in Hg. split; [done |].
    intros [Hq Hd]. rewrite Hd in Hg. destruct Hg as [[? ?]|?]; done.
  - apply join_guard_false in Hg as [Hd Hq]. split; [done |].
    intros _. destruct (waitingQueue gw); [done |]. by case_match.
Qed.

(** [joinPath] names the exit [handleJoinQueue] takes. *)
Lemma handleJoinQueue_by_path (client : string) (gw : AppGateway) :
  let result := handleJoinQueue client gw in
  match joinPath client gw with
  | Ignored => result = (gw, [])
  | SelfGuard =>
      waitingQueue result.1 = tail (waitingQueue gw) ++ [client] ∧
      socketToRoom result.1 = socketToRoom gw ∧ result.2 = []
  | Matched partnerId =>
      head (waitingQueue gw) = Some partnerId ∧
      waitingQueue result.1 = tail (waitingQueue gw) ∧
      socketToRoom result.1 !! client = Some (roomIdOf partnerId client)
  | Enqueued =>
      waitingQueue result.1 = [client] ∧
      socketToRoom result.1 = socketToRoom gw ∧
      result.2 = [ Emit {[client]} waiting_for_match ]
  end.
Proof.
  unfold joinPath, handleJoinQueue.
  destruct (has _ _ || includes _ _); [done |].
  destruct (waitingQueue gw) as [|p rest]; [done |].
  destruct (String.eqb_spec p client) as [->|Hne]; [done |].
  destruct (truthy p); simpl; split_and!; try done.
  - rewrite lookup_insert_ne by done. apply lookup_insert_eq.
  - apply lookup_insert_eq.
Qed.

Lemma handleUserLeave_cases (socketId : string) (gw : AppGateway)
    (P : AppGateway * list Emission → Prop) :
  (∀ roomId,
     socketToRoom gw !! socketId = Some roomId → truthy roomId = true →
     P ({| server := Server.socketsLeave roomId (server gw);
           waitingQueue := filter (λ id, id ≠ socketId) (waitingQueue gw);
           socketToRoom := delete socketId (socketToRoom gw) |},
        [ Emit (Server.to roomId (server gw)) partner_disconnected ])) →
  ((socketToRoom gw !! socketId = None ∨ socketToRoom gw !! socketId = Some EmptyString) →
   P ({| server := server gw;
         waitingQueue := filter (λ id, id ≠ socketId) (waitingQueue gw);
         socketToRoom := socketToRoom gw |}, [])) →
  P (handleUserLeave socketId gw).
Proof.
  intros Hroom Hnone. unfold handleUserLeave.
  destruct (socketToRoom gw !! socketId) as [roomId|] eqn:Hdir.
  - destruct (truthy roomId) eqn:Htr.
    + by apply Hroom.
    + apply Hnone. right. destruct roomId; [done | discriminate].
  - apply Hnone. by left.
Qed.

(** ** Invariants of every run *)

Lemma basic_initial : basic initial.
Proof.
  split; simpl.
  - constructor.
  - intros id H. by apply elem_of_nil in H.
  - intros id roomId H. by rewrite lookup_empty in H.
Qed.

Lemma basic_handleJoinQueue (client : string) (gw : AppGateway) :
  basic gw → basic (handleJoinQueue client gw).1.
Proof.
  intros [Hnd Hdj Hrm]. apply handleJoinQueue_cases; simpl.
  - done.
  - intros Hdir Hq. split; simpl.
    + apply NoDup_singleton.
    + intros id ->%list_elem_of_singleton. done.
    + done.
  - intros p rest Hdir Hnq Hq Hne _. rewrite Hq in Hnd, Hdj, Hnq.
    apply NoDup_cons in Hnd as [Hp Hnd]. split; simpl.
    + done.
    + intros id Hid.
      rewrite lookup_insert_ne by (intros ->; done).
      rewrite lookup_insert_ne by (intros ->; apply Hnq; by right).
      apply Hdj. by right.
    + intros id roomId. rewrite !lookup_insert. repeat case_decide; subst.
      * intros [= <-]. exists id, client. auto.
      * intros [= <-]. exists p, id. auto.
      * apply Hrm.
  - intros p rest Hdir Hnq Hq Hne _. rewrite Hq in Hnd, Hdj, Hnq.
    apply NoDup_cons in Hnd as [Hp Hnd]. split; simpl.
    + done.
    + intros id Hid.
      rewrite lookup_insert_ne by (intros ->; apply Hnq; by right).
      apply Hdj. by right.
    + intros id roomId. rewrite lookup_insert. case_decide; subst.
      * intros [= <-]. exists p, id. auto.
      * apply Hrm.
Qed.

Lemma basic_handleUserLeave (socketId : string) (gw : AppGateway) :
  basic gw → basic (handleUserLeave socketId gw).1.
Proof.
  intros [Hnd Hdj Hrm]. apply handleUserLeave_cases; simpl.
  - intros roomId Hdir _. split; simpl.
    + by apply NoDup_filter.
    + intros id [Hne Hid]%list_elem_of_filter.
      rewrite lookup_delete_ne by done. by apply Hdj.
    + intros id r. rewrite lookup_delete. case_decide; [done | apply Hrm].
  - intros _. split; simpl.
    + by apply NoDup_filter.
    + intros id [Hne Hid]%list_elem_of_filter. by apply Hdj.
    + done.
Qed.

Lemma basic_with_server (f : Server.t → Server.t) (gw : AppGateway) :
  basic gw → basic (with_server f gw).
Proof. intros [? ? ?]. by split. Qed.

Lemma basic_dispatch (ev : InEvent) (gw : AppGateway) :
  basic gw → basic (dispatch ev gw).1.
Proof.
  intros Hb. destruct ev as [id|id|id|id|id body|id body]; simpl.
  - by apply basic_with_server.
  - by apply basic_handleUserLeave, basic_with_server.
  - by apply basic_handleJoinQueue.
  - by apply basic_handleUserLeave.
  - unfold handleSignal. by repeat case_match.
  - unfold handleMessage. by repeat case_match.
Qed.

Lemma run_cons (ev : InEvent) (evs : list InEvent) (gw : AppGateway) :
  run (ev :: evs) gw =
    ((run evs (dispatch ev gw).1).1, (dispatch ev gw).2 ++ (run evs (dispatch ev gw).1).2).
Proof. simpl. destruct (dispatch ev gw), (run evs _). done. Qed.

Lemma run_app (evs evs' : list InEvent) (gw : AppGateway) :
  run (evs ++ evs') gw =
    ((run evs' (run evs gw).1).1, (run evs gw).2 ++ (run evs' (run evs gw).1).2).
Proof.
  revert gw. induction evs as [|ev evs IH]; intros gw.
  - simpl. by destruct (run evs' gw).
  - rewrite <- app_comm_cons, !run_cons, IH. simpl. by rewrite app_assoc.
Qed.

Lemma basic_run (evs : list InEvent) (gw : AppGateway) :
  basic gw → basic (run evs gw).1.
Proof.
  revert gw. induction evs as [|ev evs IH]; intros gw Hb; [done |].
  rewrite run_cons. simpl. by apply IH, basic_dispatch.
Qed.

Lemma basic_final (evs : list InEvent) : basic (final evs).
Proof. apply basic_run, basic_initial. Qed.

(** ** Rooms of the server *)

Lemma members_join (r id room : string) (srv : Server.t) :
  Server.members r (Server.join id room srv) =
    if decide (room = r) then {[id]} ∪ Server.members r srv else Server.members r srv.
Proof.
  unfold Server.members at 1. simpl. rewrite lookup_insert.
  case_decide; [by subst | done].
Qed.

Lemma members_onconnect (r id : string) (srv : Server.t) :
  Server.members r (Server.onconnect id srv) =
    if decide (id = r) then {[id]} ∪ Server.members r srv else Server.members r srv.
Proof. unfold Server.onconnect. by rewrite members_join. Qed.

Lemma members_onclose (r id : string) (srv : Server.t) :
  Server.members r (Server.onclose id srv) = Server.members r srv ∖ {[id]}.
Proof.
  unfold Server.members. simpl. rewrite lookup_fmap.
  destruct (Server.rooms srv !! r); simpl; [done | set_solver].
Qed.

Lemma members_socketsLeave (r room : string) (srv : Server.t) :
  Server.members r (Server.socketsLeave room srv) =
    if decide (room = r) then ∅ else Server.members r srv.
Proof.
  unfold Server.members at 1. simpl. rewrite lookup_delete.
  case_decide; [by subst | done].
Qed.

Lemma get_connected (id : string) (srv : Server.t) :
  id ∈ Server.sockets srv → Server.get id srv = Some id.
Proof. intros H. unfold Server.get. by case_decide. Qed.

(** ** Invariants of admissible runs *)

Lemma linked_initial : linked initial.
Proof.
  split; simpl; set_solver.
Qed.

(** A directory never maps three different sockets to one room. *)
Lemma linked_no_third (gw : AppGateway) (a b x : string) (roomId : string) :
  linked gw → a ≠ b → a ≠ x → b ≠ x →
  socketToRoom gw !! a = Some roomId → socketToRoom gw !! b = Some roomId →
  socketToRoom gw !! x = Some roomId → False.
Proof.
  intros Hl Hab Hax Hbx Ha Hb Hx.
  destruct (linked_rooms gw Hl _ _ Ha) as (p & c & -> & Hp & Hc & Hpc & Hap).
  destruct (linked_rooms gw Hl _ _ Hb) as (p' & c' & Heq & Hp' & Hc' & _ & Hbp).
  apply roomIdOf_inj in Heq as [<- <-]; [|unfold socket_id in *; congruence].
  destruct (linked_rooms gw Hl _ _ Hx) as (p' & c' & Heq & Hp'' & Hc'' & _ & Hxp).
  apply roomIdOf_inj in Heq as [<- <-]; [|unfold socket_id in *; congruence].
  naive_solver.
Qed.

(** A socket identifier is not the name of a session room. *)
Lemma linked_room_not_id (gw : AppGateway) (id x roomId : string) :
  linked gw → socket_id id → socketToRoom gw !! x = Some roomId → roomId ≠ id.
Proof.
  intros Hl Hid Hx ->.
  destruct (linked_rooms gw Hl _ _ Hx) as (p & c & Heq & Hp & _).
  by apply (socket_id_not_room id p c).
Qed.

Lemma linked_connect (id : string) (gw : AppGateway) :
  linked gw → admissible (connect id) gw →
  linked (with_server (Server.onconnect id) gw).
Proof.
  intros Hl [Hid Hfresh]. destruct Hl as [Hids Hq Hd Hown Hmem Hrm Hpr].
  split; simpl.
  - intros x [->%elem_of_singleton|Hx]%elem_of_union; auto.
  - intros x Hx. apply elem_of_union_r. auto.
  - intros x r Hx. apply elem_of_union_r. eauto.
  - intros x Hx. rewrite members_onconnect. simpl.
    case_decide as Hc; [subst; set_solver |].
    apply Hown. set_solver.
  - intros room x. rewrite members_onconnect. simpl.
    case_decide as Hc.
    + subst room. intros [->%elem_of_singleton|Hx]%elem_of_union.
      * split; [set_solver | by left].
      * destruct (Hmem _ _ Hx) as [? ?]. split; [set_solver | done].
    + intros Hx. destruct (Hmem _ _ Hx) as [? ?]. split; [set_solver | done].
  - done.
  - intros a b r Hab Ha Hb. rewrite !members_onconnect. simpl.
    destruct (Hpr a b r Hab Ha Hb). case_decide; set_solver.
Qed.

Lemma linked_handleJoinQueue (client : string) (gw : AppGateway) :
  basic gw → linked gw → admissible (join_queue client) gw →
  linked (handleJoinQueue client gw).1.
Proof.
  intros [Hnd Hdj _] Hl Hadm. pose proof Hl as [Hids Hq Hd Hown Hmem Hrm Hpr].
  simpl in Hadm. apply handleJoinQueue_cases; simpl.
  - done.
  - intros Hdir Hqe. split; simpl; try done.
    by intros id ->%list_elem_of_singleton.
  - intros p rest Hdir Hnq Hqe Hne _.
    assert (p ∈ Server.sockets (server gw)) as Hp by (apply Hq; rewrite Hqe; left).
    rewrite get_connected by done.
    assert (socketToRoom gw !! p = None) as Hpdir by (apply Hdj; rewrite Hqe; left).
    set (roomId := roomIdOf p client).
    split; simpl.
    + done.
    + intros id Hid. apply Hq. rewrite Hqe. by right.
    + intros id r. rewrite !lookup_insert. repeat case_decide; subst; eauto.
    + intros id Hid. rewrite !members_join.
      specialize (Hown _ Hid). repeat case_decide; set_solver.
    + intros room id. rewrite !members_join, !lookup_insert.
      intros Hin. split.
      * repeat case_decide; subst;
          repeat match goal with
                 | H : _ ∈ _ ∪ _ |- _ => apply elem_of_union in H as [H|H]
                 | H : _ ∈ {[ _ ]} |- _ => apply elem_of_singleton in H; subst
                 end; try done; by apply (Hmem _ _ Hin).
      * destruct (decide (roomId = room)) as [<-|Hroom].
        -- repeat case_decide; subst; auto.
           apply elem_of_union in Hin as [Hin|Hin]; [set_solver |].
           apply elem_of_union in Hin as [Hin|Hin]; [set_solver |].
           by apply (Hmem _ _ Hin).
        -- destruct (Hmem _ _ Hin) as [_ [->|Hr]]; [by left |].
           right. repeat case_decide; subst; congruence.
    + intros id r. rewrite !lookup_insert. repeat case_decide; subst.
      * intros [= <-]. exists id, client. auto 10.
      * intros [= <-]. exists p, id. auto 10.
      * apply Hrm.
    + assert (∀ x, x ≠ p → x ≠ client → socketToRoom gw !! x ≠ Some roomId) as Hfresh.
      { intros x Hxp Hxc Hx.
        destruct (Hrm _ _ Hx) as (p' & c' & Heq & Hp' & Hc' & _ & Hor).
        apply roomIdOf_inj in Heq as [<- <-]; [naive_solver |].
        specialize (Hids _ Hp). unfold socket_id in *. congruence. }
      intros a b r Hab. rewrite !members_join, !lookup_insert.
      repeat case_decide; subst; intros Ha Hb;
        try (injection Ha as <-); try (injection Hb as <-);
        try done; try set_solver;
        try (exfalso; by eapply (Hfresh a));
        try (exfalso; by eapply (Hfresh b)).
  - intros p rest _ _ Hqe _ Htr.
    assert (p ∈ Server.sockets (server gw)) as Hp by (apply Hq; rewrite Hqe; left).
    apply Hids, socket_id_truthy in Hp. congruence.
Qed.

Lemma members_closing (closed : bool) (r id x : string) (srv : Server.t) :
  x ∈ Server.members r (closing closed id srv) ↔
  x ∈ Server.members r srv ∧ (closed = true → x ≠ id).
Proof.
  destruct closed; simpl; [rewrite members_onclose; set_solver | naive_solver].
Qed.

Lemma sockets_closing (closed : bool) (id x : string) (srv : Server.t) :
  x ∈ Server.sockets (closing closed id srv) ↔
  x ∈ Server.sockets srv ∧ (closed = true → x ≠ id).
Proof. destruct closed; simpl; [set_solver | naive_solver]. Qed.

Lemma dispatch_leave_room (id : string) (gw : AppGateway) :
  dispatch (leave_room id) gw = handleUserLeave id (with_server (closing false id) gw).
Proof. by destruct gw. Qed.

Lemma dispatch_disconnect (id : string) (gw : AppGateway) :
  dispatch (disconnect id) gw = handleUserLeave id (with_server (closing true id) gw).
Proof. done. Qed.

Lemma linked_handleUserLeave (closed : bool) (socketId : string) (gw : AppGateway) :
  linked gw →
  linked (handleUserLeave socketId (with_server (closing closed socketId) gw)).1.
Proof.
  intros Hl. pose proof Hl as [Hids Hq Hd Hown Hmem Hrm Hpr].
  apply handleUserLeave_cases; simpl.
  - intros roomId Hdir _. split; simpl.
    + intros id [Hid _]%sockets_closing. auto.
    + intros id [Hne Hid]%list_elem_of_filter. apply sockets_closing.
      split; [auto | done].
    + intros id r. rewrite lookup_delete. case_decide; [done |].
      intros Hr. apply sockets_closing. split; [eauto | done].
    + intros id [Hid Hne]%sockets_closing. rewrite members_socketsLeave.
      rewrite decide_False by (eapply linked_room_not_id; eauto).
      apply members_closing. auto.
    + intros room id. rewrite members_socketsLeave.
      case_decide as Hroom; [set_solver |].
      intros [Hin Hne]%members_closing. destruct (Hmem _ _ Hin) as [Hs Hor].
      split; [by apply sockets_closing |].
      destruct Hor as [->|Hr]; [by left |]. right.
      rewrite lookup_delete_ne; [done | congruence].
    + intros id r. rewrite lookup_delete. case_decide; [done | apply Hrm].
    + intros a b r Hab. rewrite !lookup_delete. repeat case_decide; try done.
      intros Ha Hb. rewrite members_socketsLeave. case_decide as Hroom.
      { subst r. exfalso. by apply (linked_no_third gw a b socketId roomId). }
      destruct (Hpr a b r Hab Ha Hb).
      split; apply members_closing; split; congruence.
  - intros Hnone.
    assert (socketToRoom gw !! socketId = None) as Hdir.
    { destruct Hnone as [?|Hr]; [done |].
      destruct (Hrm _ _ Hr) as (p & c & Heq & _). discriminate. }
    assert (∀ x r, socketToRoom gw !! x = Some r → x ≠ socketId) as Hother
      by (intros x r Hx ->; congruence).
    split; simpl.
    + intros id [Hid _]%sockets_closing. auto.
    + intros id [Hne Hid]%list_elem_of_filter. apply sockets_closing.
      split; [auto | done].
    + intros id r Hr. apply sockets_closing. split; eauto.
    + intros id [Hid Hne]%sockets_closing. apply members_closing. auto.
    + intros room id [Hin Hne]%members_closing. destruct (Hmem _ _ Hin) as [Hs Hor].
      split; [by apply sockets_closing | done].
    + done.
    + intros a b r Hab Ha Hb. destruct (Hpr a b r Hab Ha Hb).
      split; apply members_closing; split; eauto.
Qed.

Lemma handleSignal_state (client : string) (body : SignalBody) (gw : AppGateway) :
  (handleSignal client body gw).1 = gw.
Proof. unfold handleSignal. by repeat case_match. Qed.

Lemma handleMessage_state (client : string) (body : MessageBody) (gw : AppGateway) :
  (handleMessage client body gw).1 = gw.
Proof. unfold handleMessage. by repeat case_match. Qed.

Lemma consistent_dispatch (ev : InEvent) (gw : AppGateway) :
  consistent gw → admissible ev gw → consistent (dispatch ev gw).1.
Proof.
  intros [Hb Hl] Hadm. split; [by apply basic_dispatch |].
  destruct ev as [id|id|id|id|id body|id body].
  - by apply linked_connect.
  - rewrite dispatch_disconnect. by apply linked_handleUserLeave.
  - by apply linked_handleJoinQueue.
  - rewrite dispatch_leave_room. by apply linked_handleUserLeave.
  - simpl. by rewrite handleSignal_state.
  - simpl. by rewrite handleMessage_state.
Qed.

Lemma consistent_initial : consistent initial.
Proof. split; [apply basic_initial | apply linked_initial]. Qed.

Lemma reachable_consistent (gw : AppGateway) : reachable gw → consistent gw.
Proof.
  induction 1 as [|gw ev _ IH Hadm]; [apply consistent_initial |].
  by apply consistent_dispatch.
Qed.

Lemma reachable_run (evs : list InEvent) (gw : AppGateway) :
  reachable gw → admissible_run evs gw → reachable (run evs gw).1.
Proof.
  revert gw. induction evs as [|ev evs IH]; intros gw Hr Hadm; [done |].
  destruct Hadm as [Hev Hevs]. rewrite run_cons. simpl.
  apply IH; [by apply reachable_step | done].
Qed.

Lemma reachable_final (evs : list InEvent) :
  admissible_run evs initial → reachable (final evs).
Proof. apply reachable_run, reachable_initial. Qed.

(** ** Who is in which room *)

(** The room named after a connected socket holds that socket alone. *)
Lemma members_own (gw : AppGateway) (id : string) :
  consistent gw → id ∈ Server.sockets (server gw) →
  Server.members id (server gw) = {[id]}.
Proof.
  intros [_ Hl] Hid. apply set_eq. intros x. rewrite elem_of_singleton. split.
  - intros Hx. destruct (linked_members gw Hl _ _ Hx) as [_ [->|Hr]]; [done |].
    exfalso. eapply linked_room_not_id; eauto. by apply (linked_ids gw Hl).
  - intros ->. by apply (linked_own gw Hl).
Qed.

(** The room of two sockets neither of which is in the directory is empty. *)
Lemma members_unpaired (gw : AppGateway) (p c : string) :
  consistent gw → socket_id p → socket_id c →
  socketToRoom gw !! p = None → socketToRoom gw !! c = None →
  Server.members (roomIdOf p c) (server gw) = ∅.
Proof.
  intros [_ Hl] Hp Hc Hpd Hcd. apply set_eq. intros x. split; [|set_solver].
  intros Hx. exfalso.
  destruct (linked_members gw Hl _ _ Hx) as [Hs [Heq|Hr]].
  - apply (socket_id_not_room x p c); [by apply (linked_ids gw Hl) | done | done].
  - destruct (linked_rooms gw Hl _ _ Hr) as (p' & c' & Heq & Hp' & _ & _ & Hor).
    apply roomIdOf_inj in Heq as [<- <-]; [|unfold socket_id in *; congruence].
    naive_solver.
Qed.

(** The room of two sockets the directory maps to it holds exactly them. *)
Lemma members_paired (gw : AppGateway) (a b roomId : string) :
  consistent gw → a ≠ b →
  socketToRoom gw !! a = Some roomId → socketToRoom gw !! b = Some roomId →
  Server.members roomId (server gw) = {[a; b]}.
Proof.
  intros [_ Hl] Hab Ha Hb. apply set_eq. intros x.
  rewrite elem_of_union, !elem_of_singleton. split.
  - intros Hx. destruct (linked_members gw Hl _ _ Hx) as [Hs [Heq|Hr]].
    + exfalso. eapply (linked_room_not_id gw x a); eauto. by apply (linked_ids gw Hl).
    + destruct (decide (x = a)) as [|Hxa]; [by left |].
      destruct (decide (x = b)) as [|Hxb]; [by right |].
      exfalso. by apply (linked_no_third gw a b x roomId).
  - destruct (linked_pairs gw Hl a b roomId Hab Ha Hb). by intros [->| ->].
Qed.

(** Members of a session room are among those the directory maps to it. *)
Lemma members_session (gw : AppGateway) (id roomId x : string) :
  consistent gw → socketToRoom gw !! id = Some roomId →
  x ∈ Server.members roomId (server gw) → socketToRoom gw !! x = Some roomId.
Proof.
  intros [_ Hl] Hid Hx. destruct (linked_members gw Hl _ _ Hx) as [Hs [Heq|Hr]]; [|done].
  exfalso. eapply (linked_room_not_id gw x id); eauto. by apply (linked_ids gw Hl).
Qed.

(** ** State exclusivity and queue uniqueness *)

Lemma in_state_exclusive (gw : AppGateway) (id : string) :
  basic gw →
  ∃ s, in_state gw id s ∧ ∀ s', in_state gw id s' → s' = s.
Proof.
  intros [_ Hdj _].
  destruct (decide (id ∈ waitingQueue gw)) as [Hq|Hq].
  - exists Queued. split; [done |].
    intros [| |]; simpl; [naive_solver | done |].
    rewrite (Hdj _ Hq). by intros [? ?].
  - destruct (socketToRoom gw !! id) as [r|] eqn:Hd.
    + exists Paired. split; [simpl; by rewrite Hd |].
      intros [| |]; simpl; [rewrite Hd; naive_solver | done | done].
    + exists Idle. split; [done |].
      intros [| |]; simpl; [done | done |]. rewrite Hd. by intros [? ?].
Qed.

(** C3. After any sequence of events every connection identifier is in
    exactly one of the states Idle, Queued and Paired; no identifier is
    at once in [waitingQueue] and a key of [socketToRoom]. *)
Theorem state_exclusivity (evs : list InEvent) (id : string) :
  (∃ s, in_state (final evs) id s ∧ ∀ s', in_state (final evs) id s' → s' = s) ∧
  ¬ (id ∈ waitingQueue (final evs) ∧ is_Some (socketToRoom (final evs) !! id)).
Proof.
  pose proof (basic_final evs) as Hb. split; [by apply in_state_exclusive |].
  intros [Hq Hd]. rewrite (basic_disjoint _ Hb _ Hq) in Hd. by destruct Hd.
Qed.

Lemma state_exclusivity_witness :
  in_state (final pairing) sockA Paired ∧
  ∀ s', in_state (final pairing) sockA s' → s' = Paired.
Proof.
  destruct (state_exclusivity pairing sockA) as [[s [Hs Huniq]] _].
  assert (in_state (final pairing) sockA Paired) as Hp by (vm_compute; eauto).
  split; [done |]. intros s' Hs'.
  rewrite (Huniq _ Hs'). symmetry. by apply Huniq.
Defined.

(** C4. After any sequence of events [waitingQueue] holds no identifier
    twice, and a [join_queue] from a connection that is Queued or Paired
    changes nothing and emits nothing. *)
Theorem queue_uniqueness (evs : list InEvent) (id : string) :
  NoDup (waitingQueue (final evs)) ∧
  (in_state (final evs) id Queued ∨ in_state (final evs) id Paired →
   handleJoinQueue id (final evs) = (final evs, [])).
Proof.
  split; [apply basic_nodup, basic_final |].
  intros H. apply handleJoinQueue_ignored. simpl in H. tauto.
Qed.

Lemma queue_uniqueness_witness :
  handleJoinQueue sockA (final [connect sockA; join_queue sockA]) =
    (final [connect sockA; join_queue sockA], []).
Proof.
  apply (queue_uniqueness [connect sockA; join_queue sockA] sockA).
  left. vm_compute. left.
Defined.

(** ** No self-pair *)

(** C9. The defensive branch of [handleJoinQueue] (dequeued partner
    equal to the joining client) is taken in no state at all; a match
    pairs the client with a different identifier; and after any
    sequence of events every directory entry names a room of two
    different members. *)
Theorem no_self_pair (evs : list InEvent) (gw : AppGateway) (client : string) :
  joinPath client gw ≠ SelfGuard ∧
  (∀ partnerId, joinPath client gw = Matched partnerId → partnerId ≠ client) ∧
  (∀ id roomId, socketToRoom (final evs) !! id = Some roomId →
     ∃ p c, roomId = roomIdOf p c ∧ p ≠ c ∧ (id = p ∨ id = c)).
Proof.
  split; [|split].
  - unfold joinPath.
    destruct (has _ _ || includes _ _) eqn:Hg; [done |].
    apply join_guard_false in Hg as [_ Hnq].
    destruct (waitingQueue gw) as [|p rest]; [done |].
    destruct (String.eqb_spec p client) as [->|]; [|done].
    exfalso. apply Hnq. left.
  - intros p. unfold joinPath.
    destruct (has _ _ || includes _ _); [done |].
    destruct (waitingQueue gw) as [|p' rest]; [done |].
    destruct (String.eqb_spec p' client) as [->|Hne]; [done |].
    by intros [= <-].
  - apply basic_rooms, basic_final.
Qed.

Lemma no_self_pair_witness :
  ∃ p c, roomIdOf sockA sockB = roomIdOf p c ∧ p ≠ c ∧ (sockB = p ∨ sockB = c).
Proof.
  apply (no_self_pair pairing initial sockA). reflexivity.
Defined.

(** ** Derivation of the session identifier *)

(** C10, as the claim states it, fails: with A waiting and B joining
    the identifier differs from the one with B waiting and A joining. *)
Lemma roomIdOf_not_commutative :
  ¬ (∀ a b : string, a ≠ b → roomIdOf a b = roomIdOf b a).
Proof. intros H. by specialize (H sockA sockB ltac:(done)). Qed.

(** C10, amended. The session identifier is [room_<partner>_<joiner>],
    a function of the ordered pair: for two different identifiers of
    one length, as socket identifiers are, swapping the roles gives a
    different session identifier. *)
Theorem roomIdOf_ordered (a b : string) :
  roomIdOf a b = ("room_" +:+ a +:+ "_" +:+ b)%string ∧
  (String.length a = String.length b → a ≠ b → roomIdOf a b ≠ roomIdOf b a).
Proof.
  split; [done |]. intros Hlen Hne Heq.
  by apply roomIdOf_inj in Heq as [? _].
Qed.

Lemma roomIdOf_ordered_witness : roomIdOf sockA sockB ≠ roomIdOf sockB sockA.
Proof. apply (roomIdOf_ordered sockA sockB); [reflexivity | done]. Defined.

(** ** FIFO pairing *)

Lemma consistent_waiting_well (gw : AppGateway) : consistent gw → waiting_well gw.
Proof.
  intros [Hb Hl]. split; [apply (basic_nodup gw Hb) |].
  apply Forall_forall. intros id Hid.
  pose proof (linked_queue gw Hl _ Hid) as Hs. split_and!.
  - by apply socket_id_truthy, (linked_ids gw Hl).
  - done.
  - by apply (basic_disjoint gw Hb).
Qed.

Lemma reachable_waiting_well (gw : AppGateway) : reachable gw → waiting_well gw.
Proof. intros Hr. by apply consistent_waiting_well, reachable_consistent. Qed.

(** A joiner is matched whenever someone waits, so at most one waits. *)
Lemma queue_at_most_one (evs : list InEvent) : length (waitingQueue (final evs)) ≤ 1.
Proof.
  unfold final. generalize initial, (Nat.le_0_1 : length (waitingQueue initial) ≤ 1).
  induction evs as [|ev evs IH]; intros gw Hlen; [done |].
  rewrite run_cons. simpl. apply IH.
  assert (∀ id gw0, length (waitingQueue gw0) ≤ 1 →
            length (waitingQueue (handleUserLeave id gw0).1) ≤ 1) as Hleave.
  { intros id gw0 Hlen0. apply handleUserLeave_cases; simpl; intros;
      (etrans; [apply length_filter | done]). }
  destruct ev as [id|id|id|id|id body|id body]; simpl.
  - done.
  - by apply (Hleave id).
  - apply handleJoinQueue_cases; simpl; [done | done | |];
      intros p rest _ _ Hq _ _; rewrite Hq in Hlen; simpl in Hlen; lia.
  - by apply (Hleave id).
  - by rewrite handleSignal_state.
  - by rewrite handleMessage_state.
Qed.

Lemma join_queue_match (gw : AppGateway) (client head : string) (rest : list string) :
  waiting_well gw → in_state gw client Idle → waitingQueue gw = head :: rest →
  let roomId := roomIdOf head client in
  let srv := Server.join head roomId (Server.join client roomId (server gw)) in
  head ≠ client ∧ (head ∉ rest) ∧
  handleJoinQueue client gw =
    ({| server := srv;
        waitingQueue := rest;
        socketToRoom := <[head := roomId]> (<[client := roomId]> (socketToRoom gw)) |},
     [ Emit (Server.to roomId srv) (match_found roomId);
       Emit {[client]} (is_initiator true);
       Emit (Server.to head srv) (is_initiator false) ]).
Proof.
  intros [Hnd Hall] [Hnq Hdir] Hq. simpl.
  rewrite Hq in Hnd, Hall.
  apply NoDup_cons in Hnd as [Hhead _].
  apply Forall_cons in Hall as [(Htr & Hs & _) _].
  split_and!.
  - intros ->. apply Hnq. rewrite Hq. left.
  - done.
  - by apply handleJoinQueue_match.
Qed.

Lemma join_queue_waiting_well (gw : AppGateway) (client : string) :
  waiting_well gw → in_state gw client Idle →
  client ∈ Server.sockets (server gw) → truthy client = true →
  waiting_well (handleJoinQueue client gw).1.
Proof.
  intros Hw Hidle Hs Htr. pose proof Hw as [Hnd Hall]. pose proof Hidle as [Hnq Hdir].
  destruct (waitingQueue gw) as [|head rest] eqn:Hq.
  - rewrite handleJoinQueue_enqueue by done. split; simpl.
    + apply NoDup_singleton.
    + by repeat constructor.
  - destruct (join_queue_match gw client head rest Hw Hidle Hq) as (Hne & Hhead & ->).
    apply NoDup_cons in Hnd as [_ Hnd]. apply Forall_cons in Hall as [_ Hall].
    split; simpl; [done |].
    rewrite Forall_forall in Hall. apply Forall_forall. intros id Hid.
    destruct (Hall _ Hid) as (? & ? & ?). split_and!; [done | done |].
    rewrite lookup_insert_ne by (intros ->; done).
    rewrite lookup_insert_ne by (intros ->; apply Hnq; by right).
    done.
Qed.

(** C5. For an Idle connection [client] whose [join_queue] is
    processed: if someone waits, [client] is paired with the head of the
    queue, the head leaves the queue, and the directory maps both to
    the one new session, whose room both are in; if no one waits,
    [client] is appended and the directory is unchanged.  With [a] and
    [b] waiting in that order, a joining [client] pairs with [a] and a
    joining [d] after it pairs with [b]. *)
Theorem fifo_pairing (gw : AppGateway) (client : string) :
  waiting_well gw → in_state gw client Idle →
  let gw' := (handleJoinQueue client gw).1 in
  (∀ head rest, waitingQueue gw = head :: rest →
     let roomId := roomIdOf head client in
     joinPath client gw = Matched head ∧ head ≠ client ∧
     waitingQueue gw' = rest ∧ (head ∉ waitingQueue gw') ∧
     socketToRoom gw' =
       <[head := roomId]> (<[client := roomId]> (socketToRoom gw)) ∧
     {[head; client]} ⊆ Server.members roomId (server gw')) ∧
  (waitingQueue gw = [] →
     joinPath client gw = Enqueued ∧
     waitingQueue gw' = [client] ∧ socketToRoom gw' = socketToRoom gw) ∧
  (∀ a b rest d, waitingQueue gw = a :: b :: rest →
     in_state gw d Idle → d ∈ Server.sockets (server gw) → truthy d = true →
     client ∈ Server.sockets (server gw) → truthy client = true → d ≠ client →
     let gw'' := (handleJoinQueue d gw').1 in
     socketToRoom gw'' !! a = Some (roomIdOf a client) ∧
     socketToRoom gw'' !! client = Some (roomIdOf a client) ∧
     socketToRoom gw'' !! b = Some (roomIdOf b d) ∧
     socketToRoom gw'' !! d = Some (roomIdOf b d) ∧
     waitingQueue gw'' = rest).
Proof.
  intros Hw Hidle gw'. pose proof Hidle as [Hnq Hdir].
  assert (has (socketToRoom gw) client || includes (waitingQueue gw) client = false)
    as Hguard by by apply join_guard_false.
  split_and!.
  - intros head rest Hq roomId.
    destruct (join_queue_match gw client head rest Hw Hidle Hq) as (Hne & Hhead & Heq).
    subst gw'. rewrite Heq. simpl. split_and!; try done.
    + unfold joinPath. rewrite Hguard, Hq.
      by apply String.eqb_neq in Hne as ->.
    + rewrite !members_join, !decide_True by done. set_solver.
  - intros Hq. subst gw'. rewrite handleJoinQueue_enqueue by done.
    split_and!; try done. unfold joinPath. by rewrite Hguard, Hq.
  - intros a b rest d Hq [Hdq Hddir] Hds Hdtr Hcs Hctr Hdc gw''.
    pose proof Hw as [Hnd _]. rewrite Hq in Hnd.
    apply NoDup_cons in Hnd as [Hab Hnd]. apply NoDup_cons in Hnd as [Hb _].
    assert (a ≠ b) as Hneab by (intros ->; apply Hab; left).
    assert (a ≠ d) as Hnead by (intros ->; apply Hdq; rewrite Hq; left).
    assert (b ≠ d) as Hnebd by (intros ->; apply Hdq; rewrite Hq; right; left).
    assert (b ≠ client) as Hnebc by (intros ->; apply Hnq; rewrite Hq; right; left).
    destruct (join_queue_match gw client a (b :: rest) Hw Hidle Hq) as (Hneac & _ & Heq).
    assert (waiting_well gw') as Hw' by by apply join_queue_waiting_well.
    assert (waitingQueue gw' = b :: rest) as Hq' by (subst gw'; by rewrite Heq).
    assert (socketToRoom gw' =
            <[a := roomIdOf a client]> (<[client := roomIdOf a client]> (socketToRoom gw)))
      as Hdir' by (subst gw'; by rewrite Heq).
    assert (in_state gw' d Idle) as Hidle'.
    { split.
      - rewrite Hq'. intros Hin. apply Hdq. rewrite Hq. by right.
      - rewrite Hdir', !lookup_insert_ne by done. done. }
    destruct (join_queue_match gw' d b rest Hw' Hidle' Hq') as (_ & _ & Heq').
    subst gw''. rewrite Heq'. simpl. rewrite Hdir'. split_and!.
    + rewrite !(lookup_insert_ne _ _ a) by done. by rewrite lookup_insert_eq.
    + rewrite !(lookup_insert_ne _ _ client) by done.
      by rewrite lookup_insert_eq.
    + by rewrite lookup_insert_eq.
    + rewrite lookup_insert_ne by done. by rewrite lookup_insert_eq.
    + done.
Qed.

Lemma fifo_pairing_witness :
  let gw' := (handleJoinQueue sockC two_waiting).1 in
  let gw'' := (handleJoinQueue sockD gw').1 in
  socketToRoom gw'' !! sockA = Some (roomIdOf sockA sockC) ∧
  socketToRoom gw'' !! sockC = Some (roomIdOf sockA sockC) ∧
  socketToRoom gw'' !! sockB = Some (roomIdOf sockB sockD) ∧
  socketToRoom gw'' !! sockD = Some (roomIdOf sockB sockD) ∧
  waitingQueue gw'' = [].
Proof.
  assert (waiting_well two_waiting) as Hw
    by (decide_by_evaluation).
  assert (in_state two_waiting sockC Idle) as Hc
    by (decide_by_evaluation).
  assert (in_state two_waiting sockD Idle) as Hd
    by (decide_by_evaluation).
  apply (proj2 (proj2 (fifo_pairing two_waiting sockC Hw Hc)) sockA sockB [] sockD);
    try reflexivity; try done;
    decide_by_evaluation.
Defined.

(** ** The basic match *)

Lemma received_cons (id : string) (e : Emission) (log : list Emission) :
  received id (e :: log) =
    if decide (id ∈ recipients e) then payload e :: received id log
    else received id log.
Proof. unfold received. rewrite filter_cons. by case_decide. Qed.

(** C6. In a reachable state with nobody waiting, let Idle connections
    [x] and then [y] join.  The first join emits [waiting_for_match] to
    [x] alone.  The second emits [match_found] with one [roomId] to
    exactly [x] and [y], [is_initiator true] to the joiner [y] and
    [is_initiator false] to the earlier waiter [x]. *)
Theorem basic_match (gw : AppGateway) (x y : string) :
  reachable gw → waitingQueue gw = [] →
  admissible (join_queue x) gw → admissible (join_queue y) gw →
  in_state gw x Idle → in_state gw y Idle → x ≠ y →
  let first := handleJoinQueue x gw in
  let second := handleJoinQueue y first.1 in
  let roomId := roomIdOf x y in
  first.2 = [ Emit {[x]} waiting_for_match ] ∧
  second.2 = [ Emit {[x; y]} (match_found roomId);
               Emit {[y]} (is_initiator true);
               Emit {[x]} (is_initiator false) ] ∧
  received x first.2 = [ waiting_for_match ] ∧
  received x second.2 = [ match_found roomId; is_initiator false ] ∧
  received y second.2 = [ match_found roomId; is_initiator true ].
Proof.
  intros Hr Hq Hx Hy [Hxq Hxd] [Hyq Hyd] Hne first second roomId.
  simpl in Hx, Hy.
  assert (reachable first.1) as Hr1 by by apply (reachable_step gw (join_queue x)).
  pose proof (reachable_consistent _ Hr) as Hc.
  pose proof (reachable_consistent _ Hr1) as Hc1.
  assert (first = ({| server := server gw;
                      waitingQueue := [x];
                      socketToRoom := socketToRoom gw |},
                   [ Emit {[x]} waiting_for_match ])) as Hfirst
    by by apply handleJoinQueue_enqueue.
  assert (in_state first.1 y Idle) as Hidle.
  { rewrite Hfirst. split; simpl; [|done]. by intros ?%list_elem_of_singleton. }
  destruct (join_queue_match first.1 y x []) as (_ & _ & Hsecond).
  { by apply consistent_waiting_well. }
  { done. }
  { by rewrite Hfirst. }
  fold second in Hsecond. fold roomId in Hsecond.
  assert (socket_id x ∧ socket_id y) as [Hxid Hyid].
  { destruct Hc as [_ Hl]. split; by apply (linked_ids gw Hl). }
  assert (roomId ≠ x) as Hroom by (symmetry; by apply socket_id_not_room).
  assert (second.2 = [ Emit {[x; y]} (match_found roomId);
                       Emit {[y]} (is_initiator true);
                       Emit {[x]} (is_initiator false) ]) as Hout.
  { rewrite Hsecond. simpl. unfold Server.to. rewrite !members_join.
    rewrite !decide_True, !decide_False by done.
    rewrite Hfirst. simpl. subst roomId.
    rewrite members_unpaired, members_own by done.
    do 2 f_equal. set_solver. }
  split_and!.
  - by rewrite Hfirst.
  - done.
  - rewrite Hfirst. simpl. rewrite received_cons, decide_True by set_solver. done.
  - rewrite Hout, !received_cons. simpl.
    rewrite decide_True by set_solver.
    rewrite decide_False by set_solver.
    rewrite decide_True by set_solver. done.
  - rewrite Hout, !received_cons. simpl.
    rewrite decide_True by set_solver.
    rewrite decide_True by set_solver.
    rewrite decide_False by set_solver. done.
Qed.

Lemma basic_match_witness :
  let first := handleJoinQueue sockA (final [connect sockA; connect sockB]) in
  let second := handleJoinQueue sockB first.1 in
  received sockA first.2 = [ waiting_for_match ] ∧
  received sockA second.2 = [ match_found (roomIdOf sockA sockB); is_initiator false ] ∧
  received sockB second.2 = [ match_found (roomIdOf sockA sockB); is_initiator true ].
Proof.
  assert (reachable (final [connect sockA; connect sockB])) as Hr.
  { apply reachable_final. decide_by_evaluation. }
  destruct (basic_match (final [connect sockA; connect sockB]) sockA sockB Hr)
    as (_ & _ & H1 & H2 & H3);
    [reflexivity | decide_by_evaluation .. | by split_and!].
Defined.

(** ** Relay *)

Lemma relay_targets (gw : AppGateway) (client roomId : string) :
  consistent gw → socketToRoom gw !! client = Some roomId →
  let targets := Server.to_except client roomId (server gw) in
  (client ∉ targets) ∧
  (∃ p c, roomId = roomIdOf p c ∧
          ((client = p ∧ targets ⊆ {[c]}) ∨ (client = c ∧ targets ⊆ {[p]}))) ∧
  (∀ other, other ≠ client → socketToRoom gw !! other = Some roomId →
            targets = {[other]}).
Proof.
  intros Hc Hdir targets. pose proof Hc as [_ Hl]. subst targets.
  unfold Server.to_except. split_and!.
  - set_solver.
  - destruct (linked_rooms gw Hl _ _ Hdir) as (p & c & -> & Hp & Hcid & Hpc & Hor).
    exists p, c. split; [done |].
    assert (∀ x, x ∈ Server.members (roomIdOf p c) (server gw) → x = p ∨ x = c) as Hin.
    { intros x Hx. pose proof (members_session gw client _ x Hc Hdir Hx) as Hxd.
      destruct (linked_rooms gw Hl _ _ Hxd) as (p' & c' & Heq & Hp' & _ & _ & Hor').
      apply roomIdOf_inj in Heq as [<- <-]; [done |].
      unfold socket_id in *. congruence. }
    destruct Hor as [->| ->]; [left | right]; (split; [done |]);
      intros x [Hx Hne%not_elem_of_singleton]%elem_of_difference;
      apply elem_of_singleton; destruct (Hin x Hx); congruence.
  - intros other Hne Hother.
    rewrite (members_paired gw other client roomId) by done. set_solver.
Qed.

(** C7. In a reachable state, a [signal] or [send_message] from a
    connection with no session emits nothing and leaves the state as it
    is.  From a connection with a session the state is unchanged too
    and there is one emission: it never reaches the sender, it reaches
    at most the other member of the session, and exactly the other
    member when the directory maps that one to the session as well.  A
    signal is forwarded with its cargo as received and the sender's
    identifier; a message with its text as received and the sender
    field ["partner"]. *)
Theorem relay_contract (gw : AppGateway) (client : string)
    (sbody : SignalBody) (mbody : MessageBody) :
  reachable gw →
  (socketToRoom gw !! client = None →
     handleSignal client sbody gw = (gw, []) ∧
     handleMessage client mbody gw = (gw, [])) ∧
  (∀ roomId, socketToRoom gw !! client = Some roomId →
     let targets := Server.to_except client roomId (server gw) in
     handleSignal client sbody gw =
       (gw, [ Emit targets (signal client (signal_of sbody)) ]) ∧
     handleMessage client mbody gw =
       (gw, [ Emit targets (receive_message "partner" (text_of mbody)) ]) ∧
     (client ∉ targets) ∧
     (∃ p c, roomId = roomIdOf p c ∧
             ((client = p ∧ targets ⊆ {[c]}) ∨ (client = c ∧ targets ⊆ {[p]}))) ∧
     (∀ other, other ≠ client → socketToRoom gw !! other = Some roomId →
               targets = {[other]})).
Proof.
  intros Hr. pose proof (reachable_consistent _ Hr) as Hc. split.
  - intros Hdir. unfold handleSignal, handleMessage. by rewrite Hdir.
  - intros roomId Hdir targets.
    assert (truthy roomId = true) as Htr.
    { destruct Hc as [_ Hl].
      by destruct (linked_rooms gw Hl _ _ Hdir) as (p & c & -> & _). }
    destruct (relay_targets gw client roomId Hc Hdir) as (H1 & H2 & H3).
    unfold handleSignal, handleMessage. rewrite Hdir, Htr. by split_and!.
Qed.

Lemma relay_contract_witness :
  handleSignal sockA {| target := "partner"; signal_of := "offer" |} (final pairing) =
    (final pairing, [ Emit {[sockB]} (signal sockA "offer") ]) ∧
  handleMessage sockA {| text_of := "hi" |} (final pairing) =
    (final pairing, [ Emit {[sockB]} (receive_message "partner" "hi") ]) ∧
  handleMessage sockC {| text_of := "hi" |} (final pairing) = (final pairing, []).
Proof.
  assert (reachable (final pairing)) as Hr.
  { apply reachable_final. decide_by_evaluation. }
  destruct (relay_contract (final pairing) sockA
              {| target := "partner"; signal_of := "offer" |} {| text_of := "hi" |} Hr)
    as [_ Hpaired].
  destruct (Hpaired (roomIdOf sockA sockB)) as (Hs & Hm & _ & _ & Hto); [reflexivity |].
  assert (sockB ≠ sockA) as Hne by done.
  pose proof (Hto sockB Hne eq_refl) as Heq. rewrite Heq in Hs, Hm.
  destruct (relay_contract (final pairing) sockC
              {| target := "partner"; signal_of := "offer" |} {| text_of := "hi" |} Hr)
    as [Hnone _].
  destruct Hnone as [_ Hm']; [reflexivity |].
  by split_and!.
Defined.

(** ** Symmetry of the directory

    A match writes the two entries of the new session together, so
    every event but the departure of a mapped socket keeps the
    directory symmetric. *)

Lemma roomIdOf_inj_joiner (p c p' c' : string) :
  String.length c = String.length c' →
  roomIdOf p c = roomIdOf p' c' → p = p' ∧ c = c'.
Proof.
  intros Hlen Heq. apply roomIdOf_inj; [|done].
  apply (f_equal String.length) in Heq. rewrite !roomIdOf_length in Heq. lia.
Qed.

Lemma symmetric_initial : symmetric initial.
Proof. intros p c. simpl. by rewrite !lookup_empty. Qed.

Lemma symmetric_handleJoinQueue (client : string) (gw : AppGateway) :
  reachable gw → admissible (join_queue client) gw → symmetric gw →
  symmetric (handleJoinQueue client gw).1.
Proof.
  intros Hr Hadm Hsym. pose proof (reachable_consistent _ Hr) as [Hb Hl].
  simpl in Hadm. apply handleJoinQueue_cases; simpl; try done.
  - intros p0 rest Hdir Hnq Hq Hne _.
    assert (p0 ∈ waitingQueue gw) as Hp0 by (rewrite Hq; left).
    assert (socketToRoom gw !! p0 = None) as Hp0d by by apply (basic_disjoint gw Hb).
    assert (socket_id p0) as Hp0id by by apply (linked_ids gw Hl), (linked_queue gw Hl).
    assert (socket_id client) as Hcid by by apply (linked_ids gw Hl).
    set (r0 := roomIdOf p0 client).
    assert (∀ x r,
      <[p0 := r0]> (<[client := r0]> (socketToRoom gw)) !! x = Some r ↔
      (x = p0 ∧ r = r0) ∨ (x = client ∧ r = r0) ∨ socketToRoom gw !! x = Some r)
      as Hlook.
    { intros x r. rewrite !lookup_insert. repeat case_decide; naive_solver. }
    assert (∀ p c, roomIdOf p c = r0 →
                   socket_id p ∨ socket_id c → p = p0 ∧ c = client) as Hinj.
    { unfold socket_id in *. intros p c Heq [Hlen|Hlen].
      - apply roomIdOf_inj in Heq; [done | congruence].
      - apply roomIdOf_inj_joiner in Heq; [done | congruence]. }
    intros p c. simpl. rewrite !Hlook. split.
    + intros [[-> Heq]|[[-> Heq]|Hold]].
      * destruct (Hinj _ _ Heq) as [_ ->]; auto.
      * destruct (Hinj _ _ Heq) as [-> _]; [auto | done].
      * right. right. by apply Hsym.
    + intros [[-> Heq]|[[-> Heq]|Hold]].
      * destruct (Hinj _ _ Heq) as [_ ->]; [auto | done].
      * destruct (Hinj _ _ Heq) as [-> _]; auto.
      * right. right. by apply Hsym.
  - intros p0 rest _ _ Hq _ Htr.
    assert (p0 ∈ Server.sockets (server gw)) as Hp
      by (apply (linked_queue gw Hl); rewrite Hq; left).
    apply (linked_ids gw Hl), socket_id_truthy in Hp. congruence.
Qed.

Lemma symmetric_dispatch (ev : InEvent) (gw : AppGateway) :
  reachable gw → admissible ev gw → symmetric gw →
  match ev with
  | leave_room id | disconnect id => socketToRoom gw !! id = None
  | _ => True
  end →
  symmetric (dispatch ev gw).1.
Proof.
  intros Hr Hadm Hsym Hev.
  destruct ev as [id|id|id|id|id body|id body]; simpl.
  - done.
  - unfold handleDisconnect, handleUserLeave. simpl. by rewrite Hev.
  - by apply symmetric_handleJoinQueue.
  - unfold handleLeaveRoom, handleUserLeave. by rewrite Hev.
  - by rewrite handleSignal_state.
  - by rewrite handleMessage_state.
Qed.

(** ** Leaving a session *)

(** What [handleUserLeave] does for a member [a] of a session whose
    other member is [b], on [leave_room] ([closed = false]) and on
    [disconnect] ([closed = true]): the one emission reaches [b], and on
    [leave_room] also [a], who is still in the room; the entry of [a]
    is deleted, the entry of [b] is kept, and a [join_queue] from [b]
    is ignored afterwards. *)
Lemma departure (closed : bool) (gw : AppGateway) (a b roomId : string) :
  reachable gw → a ≠ b →
  socketToRoom gw !! a = Some roomId → socketToRoom gw !! b = Some roomId →
  let result := handleUserLeave a (with_server (closing closed a) gw) in
  result.2 = [ Emit (if closed then {[b]} else {[a; b]}) partner_disconnected ] ∧
  socketToRoom result.1 !! a = None ∧
  socketToRoom result.1 !! b = Some roomId ∧
  Server.members roomId (server result.1) = ∅ ∧
  handleJoinQueue b result.1 = (result.1, []).
Proof.
  intros Hr Hab Ha Hb result. pose proof (reachable_consistent _ Hr) as Hc.
  assert (truthy roomId = true) as Htr.
  { destruct Hc as [_ Hl].
    by destruct (linked_rooms gw Hl _ _ Ha) as (p & c & -> & _). }
  assert (result =
    ({| server := Server.socketsLeave roomId (closing closed a (server gw));
        waitingQueue := filter (λ id, id ≠ a) (waitingQueue gw);
        socketToRoom := delete a (socketToRoom gw) |},
     [ Emit (Server.to roomId (closing closed a (server gw))) partner_disconnected ]))
    as ->.
  { subst result. unfold handleUserLeave. simpl. by rewrite Ha, Htr. }
  simpl. split_and!.
  - do 2 f_equal. apply set_eq. intros x. unfold Server.to.
    rewrite members_closing, (members_paired gw a b roomId) by done.
    destruct closed; set_solver.
  - apply lookup_delete_eq.
  - by rewrite lookup_delete_ne.
  - rewrite members_socketsLeave. by rewrite decide_True.
  - apply handleJoinQueue_ignored. left. simpl. by rewrite lookup_delete_ne.
Qed.

(** C8. The code at the failing input: A and B are paired and A sends
    [leave_room].  The [partner_disconnected] emission goes to the
    whole room, A included, so the leaver receives it too; on
    [disconnect], where A has left the room already, it reaches B alone. *)
Theorem leave_room_notifies_leaver :
  admissible_run (pairing ++ [leave_room sockA]) initial ∧
  (dispatch (leave_room sockA) (final pairing)).2 =
    [ Emit {[sockA; sockB]} partner_disconnected ] ∧
  received sockA (dispatch (leave_room sockA) (final pairing)).2 =
    [ partner_disconnected ] ∧
  (dispatch (disconnect sockA) (final pairing)).2 =
    [ Emit {[sockB]} partner_disconnected ] ∧
  received sockA (dispatch (disconnect sockA) (final pairing)).2 = [].
Proof.
  assert (reachable (final pairing)) as Hr.
  { apply reachable_final. decide_by_evaluation. }
  assert (sockA ≠ sockB) as Hne by done.
  assert (socketToRoom (final pairing) !! sockA = Some (roomIdOf sockA sockB))
    as Ha by reflexivity.
  assert (socketToRoom (final pairing) !! sockB = Some (roomIdOf sockA sockB))
    as Hb by reflexivity.
  destruct (departure false _ _ _ _ Hr Hne Ha Hb) as (Hleave & _).
  destruct (departure true _ _ _ _ Hr Hne Ha Hb) as (Hclose & _).
  rewrite dispatch_leave_room, dispatch_disconnect, Hleave, Hclose.
  split_and!; [decide_by_evaluation | done | | done |].
  - rewrite received_cons, decide_True by set_solver. done.
  - rewrite received_cons, decide_False by set_solver. done.
Qed.

(** C1. The code at the failing input: A and B are paired and A
    disconnects (or sends [leave_room]).  B receives
    [partner_disconnected] once and A's entry is gone, but B's entry
    stays in the directory: B is still Paired, not Idle, and B's next
    [join_queue] is ignored, with no state change and no emission. *)
Theorem partner_left_in_directory :
  let after_disconnect := final (pairing ++ [disconnect sockA]) in
  let after_leave := final (pairing ++ [leave_room sockA]) in
  admissible_run (pairing ++ [disconnect sockA; join_queue sockB]) initial ∧
  admissible_run (pairing ++ [leave_room sockA; join_queue sockB]) initial ∧
  received sockB (dispatch (disconnect sockA) (final pairing)).2 =
    [ partner_disconnected ] ∧
  socketToRoom after_disconnect !! sockA = None ∧
  socketToRoom after_disconnect !! sockB = Some (roomIdOf sockA sockB) ∧
  socketToRoom after_leave !! sockB = Some (roomIdOf sockA sockB) ∧
  in_state after_disconnect sockB Paired ∧
  ¬ in_state after_disconnect sockB Idle ∧
  dispatch (join_queue sockB) after_disconnect = (after_disconnect, []) ∧
  dispatch (join_queue sockB) after_leave = (after_leave, []).
Proof.
  assert (reachable (final pairing)) as Hr.
  { apply reachable_final. decide_by_evaluation. }
  assert (sockA ≠ sockB) as Hne by done.
  assert (socketToRoom (final pairing) !! sockA = Some (roomIdOf sockA sockB))
    as Ha by reflexivity.
  assert (socketToRoom (final pairing) !! sockB = Some (roomIdOf sockA sockB))
    as Hb by reflexivity.
  destruct (departure false _ _ _ _ Hr Hne Ha Hb) as (_ & _ & Hbl & _ & Hjl).
  destruct (departure true _ _ _ _ Hr Hne Ha Hb) as (Hout & Had & Hbd & _ & Hjd).
  rewrite <- dispatch_leave_room in Hbl, Hjl.
  rewrite <- dispatch_disconnect in Hout, Had, Hbd, Hjd.
  intros after_disconnect after_leave.
  assert (after_disconnect = (dispatch (disconnect sockA) (final pairing)).1) as ->
    by (unfold after_disconnect, final; by rewrite run_app).
  assert (after_leave = (dispatch (leave_room sockA) (final pairing)).1) as ->
    by (unfold after_leave, final; by rewrite run_app).
  assert (received sockB (dispatch (disconnect sockA) (final pairing)).2 =
          [ partner_disconnected ]) as Hrecv.
  { rewrite Hout, received_cons, decide_True by set_solver. done. }
  split_and!; try done; try decide_by_evaluation.
Qed.

(** C2. The code at the failing input: once A has left the session
    with B, the directory maps B to the session and A to nothing. *)
Theorem directory_asymmetric_after_leave :
  let after_leave := final (pairing ++ [leave_room sockA]) in
  admissible_run (pairing ++ [leave_room sockA]) initial ∧
  socketToRoom after_leave !! sockB = Some (roomIdOf sockA sockB) ∧
  socketToRoom after_leave !! sockA = None ∧
  ¬ symmetric after_leave ∧
  ¬ symmetric (final (pairing ++ [disconnect sockA])).
Proof.
  split_and!.
  - decide_by_evaluation.
  - reflexivity.
  - reflexivity.
  - intros H. destruct (H sockA sockB) as [_ H']. by specialize (H' eq_refl).
  - intros H. destruct (H sockA sockB) as [_ H']. by specialize (H' eq_refl).
Qed.

(** * Further properties of the handlers *)

(** ** Leaving *)

Lemma filter_absent (id : string) (queue : list string) :
  id ∉ queue → filter (λ x, x ≠ id) queue = queue.
Proof.
  induction queue as [|x queue IH]; [done |].
  intros Hnot. apply not_elem_of_cons in Hnot as [Hne Hnot].
  rewrite filter_cons_True by done. by rewrite IH.
Qed.

Lemma filter_removes (id : string) (queue : list string) :
  id ∉ filter (λ x, x ≠ id) queue.
Proof. by intros [? _]%list_elem_of_filter. Qed.

(** X1. [handleUserLeave] is idempotent: run a second time for the
    same socket it changes nothing and emits nothing.  For a socket
    that is neither queued nor in the directory the first run already
    changes nothing and emits nothing. *)
Theorem leave_idempotent (socketId : string) (gw : AppGateway) :
  let once := (handleUserLeave socketId gw).1 in
  handleUserLeave socketId once = (once, []) ∧
  (in_state gw socketId Idle → handleUserLeave socketId gw = (gw, [])).
Proof.
  split.
  - unfold handleUserLeave.
    destruct (socketToRoom gw !! socketId) as [roomId|] eqn:Hdir;
      [destruct (truthy roomId) eqn:Htr |]; simpl;
      rewrite ?lookup_delete_eq, ?Hdir, ?Htr;
      by rewrite filter_absent by apply filter_removes.
  - intros [Hq Hdir]. unfold handleUserLeave. rewrite Hdir, filter_absent by done.
    by destruct gw.
Qed.

Lemma leave_idempotent_witness :
  handleUserLeave sockC (final pairing) = (final pairing, []).
Proof.
  apply (leave_idempotent sockC (final pairing)). decide_by_evaluation.
Defined.

(** X2. Whatever happened before, the socket that sends [leave_room]
    or disconnects is Idle afterwards, in the queue no more and with no
    directory entry, so its next [join_queue] is not ignored. *)
Theorem leave_frees_leaver (evs : list InEvent) (id : string) :
  in_state (dispatch (leave_room id) (final evs)).1 id Idle ∧
  in_state (dispatch (disconnect id) (final evs)).1 id Idle ∧
  joinPath id (dispatch (leave_room id) (final evs)).1 ≠ Ignored ∧
  joinPath id (dispatch (disconnect id) (final evs)).1 ≠ Ignored.
Proof.
  assert (∀ gw, basic gw → in_state (handleUserLeave id gw).1 id Idle) as Hleave.
  { intros gw Hb. apply handleUserLeave_cases; simpl.
    - intros roomId _ _. split; simpl; [apply filter_removes | apply lookup_delete_eq].
    - intros [Hdir|Hdir]; split; simpl; try apply filter_removes; try done.
      by destruct (basic_rooms gw Hb _ _ Hdir) as (p & c & ? & _). }
  pose proof (basic_final evs) as Hb.
  assert (in_state (dispatch (leave_room id) (final evs)).1 id Idle) as H1
    by by apply Hleave.
  assert (in_state (dispatch (disconnect id) (final evs)).1 id Idle) as H2
    by by apply Hleave, basic_with_server.
  split_and!; try done; by apply join_processed_iff_idle.
Qed.

(** X3. At most one connection waits at any time, so a Queued
    connection that sends [leave_room] leaves the queue empty; this
    emits nothing and touches neither the directory nor the rooms. *)
Theorem leave_queued (evs : list InEvent) (id : string) :
  in_state (final evs) id Queued →
  waitingQueue (final evs) = [id] ∧
  dispatch (leave_room id) (final evs) =
    ({| server := server (final evs);
        waitingQueue := [];
        socketToRoom := socketToRoom (final evs) |}, []).
Proof.
  simpl. intros Hq. pose proof (queue_at_most_one evs) as Hlen.
  pose proof (basic_disjoint _ (basic_final evs) _ Hq) as Hdir.
  assert (waitingQueue (final evs) = [id]) as Hqueue.
  { destruct (waitingQueue (final evs)) as [|x [|y rest]]; simpl in Hlen.
    - by apply elem_of_nil in Hq.
    - by apply list_elem_of_singleton in Hq as ->.
    - lia. }
  split; [done |]. unfold handleLeaveRoom, handleUserLeave.
  rewrite Hdir, Hqueue. rewrite filter_cons_False by (intros H; by apply H).
  done.
Qed.

Lemma leave_queued_witness :
  dispatch (leave_room sockA) (final [connect sockA; join_queue sockA]) =
    ({| server := server (final [connect sockA; join_queue sockA]);
        waitingQueue := [];
        socketToRoom := socketToRoom (final [connect sockA; join_queue sockA]) |}, []).
Proof.
  apply (leave_queued [connect sockA; join_queue sockA] sockA).
  decide_by_evaluation.
Defined.

(** ** One waiter at most *)

(** X4. After any sequence of events at most one connection waits; a
    [join_queue] that is matched takes the only waiter and leaves the
    queue empty, and one that is appended finds the queue empty. *)
Theorem single_waiter (evs : list InEvent) (client : string) :
  length (waitingQueue (final evs)) ≤ 1 ∧
  (∀ partnerId, joinPath client (final evs) = Matched partnerId →
     waitingQueue (final evs) = [partnerId] ∧
     waitingQueue (handleJoinQueue client (final evs)).1 = []) ∧
  (joinPath client (final evs) = Enqueued →
     waitingQueue (final evs) = [] ∧
     waitingQueue (handleJoinQueue client (final evs)).1 = [client]).
Proof.
  pose proof (queue_at_most_one evs) as Hlen. split_and!; [done | |].
  - intros p Hpath. pose proof (handleJoinQueue_by_path client (final evs)) as Hby.
    simpl in Hby. rewrite Hpath in Hby. destruct Hby as (Hhead & Htail & _).
    destruct (waitingQueue (final evs)) as [|x [|y rest]]; simpl in *;
      [done | | lia].
    injection Hhead as ->. by rewrite Htail.
  - intros Hpath. pose proof (handleJoinQueue_by_path client (final evs)) as Hby.
    simpl in Hby. rewrite Hpath in Hby. destruct Hby as (Hq & _).
    split; [|done]. unfold joinPath in Hpath.
    destruct (has _ _ || includes _ _); [done |].
    destruct (waitingQueue (final evs)); [done |]. by case_match.
Qed.

Lemma single_waiter_witness :
  waitingQueue (final [connect sockA; connect sockB; join_queue sockA]) = [sockA] ∧
  waitingQueue
    (handleJoinQueue sockB (final [connect sockA; connect sockB; join_queue sockA])).1 = [].
Proof.
  apply (single_waiter [connect sockA; connect sockB; join_queue sockA] sockB).
  reflexivity.
Defined.

(** ** Who is touched by an event *)

Lemma session_members (gw : AppGateway) (id roomId : string) :
  consistent gw → socketToRoom gw !! id = Some roomId →
  ∃ p c, roomId = roomIdOf p c ∧ Server.members roomId (server gw) ⊆ {[p; c]}.
Proof.
  intros Hc Hdir. pose proof Hc as [_ Hl].
  destruct (linked_rooms gw Hl _ _ Hdir) as (p & c & -> & Hp & Hcid & _ & _).
  exists p, c. split; [done |]. intros x Hx.
  pose proof (members_session gw id _ x Hc Hdir Hx) as Hxd.
  destruct (linked_rooms gw Hl _ _ Hxd) as (p' & c' & Heq & Hp' & _ & _ & Hor).
  apply roomIdOf_inj in Heq as [<- <-]; [set_solver |].
  unfold socket_id in *. congruence.
Qed.

Lemma size_pair (p c : string) : size ({[p; c]} : gset string) ≤ 2.
Proof.
  rewrite size_union_alt, size_singleton.
  assert (size (({[c]} : gset string) ∖ {[p]}) ≤ size ({[c]} : gset string)) as H
    by (apply subseteq_size; set_solver).
  rewrite size_singleton in H. lia.
Qed.

Lemma joinPath_idle (gw : AppGateway) (client : string) :
  in_state gw client Idle →
  joinPath client gw =
    match waitingQueue gw with
    | p :: _ => Matched p
    | [] => Enqueued
    end.
Proof.
  intros [Hnq Hdir]. unfold joinPath.
  assert (has (socketToRoom gw) client || includes (waitingQueue gw) client = false)
    as -> by by apply join_guard_false.
  destruct (waitingQueue gw) as [|p rest]; [done |].
  destruct (String.eqb_spec p client) as [->|]; [|done].
  exfalso. apply Hnq. left.
Qed.

(** The emissions of a [join_queue] in a reachable state, with their
    recipients spelt out. *)
Lemma join_queue_emissions (gw : AppGateway) (client : string) :
  reachable gw → admissible (join_queue client) gw →
  (handleJoinQueue client gw).2 =
    match joinPath client gw with
    | Matched p =>
        [ Emit {[p; client]} (match_found (roomIdOf p client));
          Emit {[client]} (is_initiator true);
          Emit {[p]} (is_initiator false) ]
    | Enqueued => [ Emit {[client]} waiting_for_match ]
    | _ => []
    end.
Proof.
  intros Hr Hadm. simpl in Hadm. pose proof (reachable_consistent _ Hr) as Hc.
  pose proof Hc as [Hb Hl].
  destruct (decide (in_state gw client Idle)) as [Hidle|Hbusy].
  - pose proof Hidle as [Hnq Hdir].
    pose proof (consistent_waiting_well gw Hc) as Hw.
    rewrite (joinPath_idle gw client Hidle).
    destruct (waitingQueue gw) as [|p rest] eqn:Hq.
    + by rewrite handleJoinQueue_enqueue.
    + destruct (join_queue_match gw client p rest Hw Hidle Hq) as (_ & _ & ->).
      assert (p ∈ Server.sockets (server gw)) as Hp
        by (apply (linked_queue gw Hl); rewrite Hq; left).
      assert (socketToRoom gw !! p = None) as Hpd
        by (apply (basic_disjoint gw Hb); rewrite Hq; left).
      assert (socket_id p ∧ socket_id client) as [Hpid Hcid]
        by (split; by apply (linked_ids gw Hl)).
      assert (roomIdOf p client ≠ p) as Hroom
        by (symmetry; by apply socket_id_not_room).
      simpl. unfold Server.to. rewrite !members_join.
      rewrite !decide_True, !decide_False by done.
      rewrite members_unpaired, members_own by done.
      do 2 f_equal. set_solver.
  - assert (joinPath client gw = Ignored) as ->.
    { destruct (joinPath client gw) eqn:Hpath; try done;
        exfalso; apply Hbusy, join_processed_iff_idle; by rewrite Hpath. }
    rewrite handleJoinQueue_ignored; [done |].
    destruct (decide (client ∈ waitingQueue gw)); [by right | left].
    destruct (socketToRoom gw !! client) eqn:Hd; [done |].
    exfalso. by apply Hbusy.
Qed.

(** X5. A [join_queue] touches the joiner and the head of the queue
    only: for any other connection the directory entry, the place in
    the queue and the rooms it is in stay as they were, and it receives
    nothing. *)
Theorem join_queue_frame (gw : AppGateway) (client x : string) :
  reachable gw → admissible (join_queue client) gw →
  x ≠ client → head (waitingQueue gw) ≠ Some x →
  let result := handleJoinQueue client gw in
  socketToRoom result.1 !! x = socketToRoom gw !! x ∧
  (x ∈ waitingQueue result.1 ↔ x ∈ waitingQueue gw) ∧
  (∀ room, x ∈ Server.members room (server result.1) ↔
           x ∈ Server.members room (server gw)) ∧
  received x result.2 = [].
Proof.
  intros Hr Hadm Hxc Hxh result.
  assert (received x result.2 = []) as Hrecv.
  { subst result. rewrite join_queue_emissions by done.
    destruct (joinPath client gw) as [| |p|] eqn:Hpath; try done.
    - assert (p ≠ x) as Hpx.
      { intros ->. apply Hxh.
        pose proof (handleJoinQueue_by_path client gw) as Hby. simpl in Hby.
        rewrite Hpath in Hby. by destruct Hby as (-> & _). }
      rewrite !received_cons. simpl. by rewrite !decide_False by set_solver.
    - rewrite received_cons. simpl. by rewrite decide_False by set_solver. }
  subst result. revert Hrecv. apply handleJoinQueue_cases; simpl.
  - done.
  - intros _ Hq Hrecv. rewrite Hq. split_and!; try done.
    rewrite list_elem_of_singleton. split; [done | by intros ?%elem_of_nil].
  - intros p rest _ _ Hq _ _ Hrecv. rewrite Hq in Hxh |- *.
    assert (p ≠ x) as Hpx by (intros ->; by apply Hxh).
    split_and!; try done.
    + by rewrite !lookup_insert_ne.
    + rewrite elem_of_cons. naive_solver.
    + intros room. unfold Server.get. simpl.
      case_decide; rewrite !members_join; repeat case_decide; set_solver.
  - intros p rest _ _ Hq _ _ _. rewrite Hq in Hxh |- *.
    assert (p ≠ x) as Hpx by (intros ->; by apply Hxh).
    split_and!; try done.
    + by rewrite lookup_insert_ne.
    + rewrite elem_of_cons. naive_solver.
Qed.

Lemma join_queue_frame_witness :
  socketToRoom (handleJoinQueue sockC (final (pairing ++ [connect sockC]))).1 !! sockA =
    socketToRoom (final (pairing ++ [connect sockC])) !! sockA ∧
  received sockA (handleJoinQueue sockC (final (pairing ++ [connect sockC]))).2 = [].
Proof.
  assert (reachable (final (pairing ++ [connect sockC]))) as Hr.
  { apply reachable_final. decide_by_evaluation. }
  destruct (join_queue_frame (final (pairing ++ [connect sockC])) sockC sockA Hr)
    as (Hdir & _ & _ & Hrecv); [decide_by_evaluation .. | by split].
Defined.

(** X6. A [leave_room] or [disconnect] of one socket leaves every other
    connection's directory entry, place in the queue and connection as
    they were; and another socket receives something only if the
    directory maps it to the leaver's room. *)
Theorem leave_frame (gw : AppGateway) (ev : InEvent) (id x : string) :
  reachable gw → ev = leave_room id ∨ ev = disconnect id → x ≠ id →
  let result := dispatch ev gw in
  socketToRoom result.1 !! x = socketToRoom gw !! x ∧
  (x ∈ waitingQueue result.1 ↔ x ∈ waitingQueue gw) ∧
  (x ∈ Server.sockets (server result.1) ↔ x ∈ Server.sockets (server gw)) ∧
  (received x result.2 ≠ [] →
   ∃ roomId, socketToRoom gw !! id = Some roomId ∧
             socketToRoom gw !! x = Some roomId).
Proof.
  intros Hr Hev Hne result. pose proof (reachable_consistent _ Hr) as Hc.
  assert (∃ closed, result = handleUserLeave id (with_server (closing closed id) gw))
    as [closed ->].
  { subst result. destruct Hev as [-> | ->].
    - exists false. apply dispatch_leave_room.
    - exists true. apply dispatch_disconnect. }
  apply handleUserLeave_cases; simpl.
  - intros roomId Hdir _. split_and!.
    + by rewrite lookup_delete_ne.
    + rewrite list_elem_of_filter. naive_solver.
    + rewrite sockets_closing. naive_solver.
    + rewrite received_cons. simpl. case_decide as Hin; [|done].
      intros _. exists roomId. split; [done |].
      apply members_closing in Hin as [Hin _].
      by apply (members_session gw id).
  - intros _. split_and!; try done.
    + rewrite list_elem_of_filter. naive_solver.
    + rewrite sockets_closing. naive_solver.
Qed.

Lemma leave_frame_witness :
  socketToRoom (dispatch (disconnect sockA) (final pairing)).1 !! sockB =
    socketToRoom (final pairing) !! sockB.
Proof.
  assert (reachable (final pairing)) as Hr.
  { apply reachable_final. decide_by_evaluation. }
  assert (sockB ≠ sockA) as Hne by done.
  apply (leave_frame (final pairing) (disconnect sockA) sockA sockB Hr (or_intror eq_refl) Hne).
Defined.

(** X7. In an admissible run no emission goes to a socket that is not
    connected once the event is handled, and none reaches more than two
    sockets. *)
Theorem emissions_bounded (gw : AppGateway) (ev : InEvent) (e : Emission) :
  reachable gw → admissible ev gw → e ∈ (dispatch ev gw).2 →
  recipients e ⊆ Server.sockets (server (dispatch ev gw).1) ∧
  size (recipients e) ≤ 2.
Proof.
  intros Hr Hadm He. pose proof (reachable_consistent _ Hr) as Hc.
  pose proof Hc as [Hb Hl].
  assert (∀ closed id roomId,
    socketToRoom gw !! id = Some roomId →
    Server.members roomId (closing closed id (server gw)) ⊆
      Server.sockets (closing closed id (server gw)) ∧
    size (Server.members roomId (closing closed id (server gw))) ≤ 2) as Hroom.
  { intros closed id roomId Hdir. split.
    - intros x [Hx Hcl]%members_closing. apply sockets_closing.
      split; [by apply (linked_members gw Hl roomId) | done].
    - destruct (session_members gw id roomId Hc Hdir) as (p & c & _ & Hsub).
      etrans; [|apply (size_pair p c)]. apply subseteq_size.
      intros x [Hx _]%members_closing. by apply Hsub. }
  assert (∀ closed id,
    e ∈ (handleUserLeave id (with_server (closing closed id) gw)).2 →
    recipients e ⊆
      Server.sockets (server (handleUserLeave id (with_server (closing closed id) gw)).1) ∧
    size (recipients e) ≤ 2) as Hleave.
  { intros closed id. apply handleUserLeave_cases; simpl.
    - intros roomId Hdir _ ->%list_elem_of_singleton. simpl.
      by apply (Hroom closed id roomId).
    - by intros _ ?%elem_of_nil. }
  assert (∀ id roomId payload,
    socketToRoom gw !! id = Some roomId →
    e = Emit (Server.to_except id roomId (server gw)) payload →
    recipients e ⊆ Server.sockets (server gw) ∧ size (recipients e) ≤ 2) as Hrelay.
  { intros id roomId payload Hdir ->. simpl.
    destruct (Hroom false id roomId Hdir) as [Hsub Hsize]. simpl in Hsub, Hsize.
    unfold Server.to_except. split; [set_solver |].
    etrans; [|exact Hsize]. apply subseteq_size. set_solver. }
  destruct ev as [id|id|id|id|id body|id body].
  - simpl in He. by apply elem_of_nil in He.
  - rewrite dispatch_disconnect in He |- *. by apply Hleave.
  - simpl in Hadm, He |- *. rewrite join_queue_emissions in He by done.
    assert (Server.sockets (server (handleJoinQueue id gw).1) =
            Server.sockets (server gw)) as ->.
    { apply handleJoinQueue_cases; simpl; try done.
      intros p rest _ _ _ _ _. unfold Server.get. by case_decide. }
    destruct (joinPath id gw) as [| |p|] eqn:Hpath;
      try (by apply elem_of_nil in He).
    + assert (p ∈ Server.sockets (server gw)) as Hp.
      { apply (linked_queue gw Hl).
        pose proof (handleJoinQueue_by_path id gw) as Hby. simpl in Hby.
        rewrite Hpath in Hby. destruct Hby as (Hhead & _).
        destruct (waitingQueue gw); [done |]. injection Hhead as ->. left. }
      repeat (apply elem_of_cons in He as [->|He]); cbn [recipients].
      * split; [set_solver | apply size_pair].
      * split; [set_solver | rewrite size_singleton; lia].
      * split; [set_solver | rewrite size_singleton; lia].
      * by apply elem_of_nil in He.
    + apply list_elem_of_singleton in He as ->. cbn [recipients].
      split; [set_solver |]. rewrite size_singleton. lia.
  - rewrite dispatch_leave_room in He |- *. by apply Hleave.
  - simpl in He |- *. rewrite handleSignal_state. unfold handleSignal in He.
    destruct (socketToRoom gw !! id) as [roomId|] eqn:Hdir;
      [destruct (truthy roomId) |]; try (by apply elem_of_nil in He).
    apply list_elem_of_singleton in He. by eapply (Hrelay id roomId).
  - simpl in He |- *. rewrite handleMessage_state. unfold handleMessage in He.
    destruct (socketToRoom gw !! id) as [roomId|] eqn:Hdir;
      [destruct (truthy roomId) |]; try (by apply elem_of_nil in He).
    apply list_elem_of_singleton in He. by eapply (Hrelay id roomId).
Qed.

Lemma emissions_bounded_witness :
  recipients (Emit {[sockB]} partner_disconnected) ⊆
    Server.sockets (server (dispatch (disconnect sockA) (final pairing)).1) ∧
  size (recipients (Emit {[sockB]} partner_disconnected)) ≤ 2.
Proof.
  assert (reachable (final pairing)) as Hr.
  { apply reachable_final. decide_by_evaluation. }
  apply (emissions_bounded (final pairing) (disconnect sockA) _ Hr).
  - decide_by_evaluation.
  - vm_compute. left.
Defined.

(** ** Relay between the two members *)

Lemma received_app (id : string) (log log' : list Emission) :
  received id (log ++ log') = received id log ++ received id log'.
Proof. unfold received. by rewrite filter_app, fmap_app. Qed.

Lemma directory_room_truthy (gw : AppGateway) (id roomId : string) :
  basic gw → socketToRoom gw !! id = Some roomId → truthy roomId = true.
Proof.
  intros Hb Hdir. by destruct (basic_rooms gw Hb _ _ Hdir) as (p & c & -> & _).
Qed.

Lemma handleMessage_paired (gw : AppGateway) (a b roomId : string) (body : MessageBody) :
  consistent gw → a ≠ b →
  socketToRoom gw !! a = Some roomId → socketToRoom gw !! b = Some roomId →
  handleMessage a body gw =
    (gw, [ Emit {[b]} (receive_message "partner" (text_of body)) ]).
Proof.
  intros Hc Hab Ha Hb. unfold handleMessage.
  rewrite Ha, (directory_room_truthy gw a roomId) by (done || apply Hc).
  destruct (relay_targets gw a roomId Hc Ha) as (_ & _ & Hto).
  by rewrite (Hto b) by done.
Qed.

Lemma handleSignal_paired (gw : AppGateway) (a b roomId : string) (body : SignalBody) :
  consistent gw → a ≠ b →
  socketToRoom gw !! a = Some roomId → socketToRoom gw !! b = Some roomId →
  handleSignal a body gw = (gw, [ Emit {[b]} (signal a (signal_of body)) ]).
Proof.
  intros Hc Hab Ha Hb. unfold handleSignal.
  rewrite Ha, (directory_room_truthy gw a roomId) by (done || apply Hc).
  destruct (relay_targets gw a roomId Hc Ha) as (_ & _ & Hto).
  by rewrite (Hto b) by done.
Qed.

(** X8. While [a] and [b] are mapped to one room, everything [a] sends
    reaches [b] once and in the order sent, chat texts as
    [receive_message] from ["partner"] and signals with [a] as sender;
    nobody else receives any of it, [a] included, and the gateway
    state does not change. *)
Theorem relay_in_order (gw : AppGateway) (a b roomId : string)
    (texts : list MessageBody) (signals : list SignalBody) :
  reachable gw → a ≠ b →
  socketToRoom gw !! a = Some roomId → socketToRoom gw !! b = Some roomId →
  let chat := run (send_message a <$> texts) gw in
  let negotiation := run (signal_in a <$> signals) gw in
  chat.1 = gw ∧ negotiation.1 = gw ∧
  received b chat.2 = (λ body, receive_message "partner" (text_of body)) <$> texts ∧
  received b negotiation.2 = (λ body, signal a (signal_of body)) <$> signals ∧
  (∀ x, x ≠ b → received x chat.2 = [] ∧ received x negotiation.2 = []).
Proof.
  intros Hr Hab Ha Hb. pose proof (reachable_consistent _ Hr) as Hc. simpl.
  assert ((run (send_message a <$> texts) gw).1 = gw ∧
          received b (run (send_message a <$> texts) gw).2 =
            (λ body, receive_message "partner" (text_of body)) <$> texts ∧
          ∀ x, x ≠ b → received x (run (send_message a <$> texts) gw).2 = [])
    as (Hc1 & Hc2 & Hc3).
  { induction texts as [|body texts (IH1 & IH2 & IH3)]; [done |].
    rewrite fmap_cons, run_cons. simpl.
    rewrite (handleMessage_paired gw a b roomId) by done. simpl.
    split_and!; [done | |].
    - rewrite received_cons, decide_True by set_solver. simpl. by rewrite IH2.
    - intros x Hx. rewrite received_cons, decide_False by set_solver. by apply IH3. }
  assert ((run (signal_in a <$> signals) gw).1 = gw ∧
          received b (run (signal_in a <$> signals) gw).2 =
            (λ body, signal a (signal_of body)) <$> signals ∧
          ∀ x, x ≠ b → received x (run (signal_in a <$> signals) gw).2 = [])
    as (Hs1 & Hs2 & Hs3).
  { induction signals as [|body signals (IH1 & IH2 & IH3)]; [done |].
    rewrite fmap_cons, run_cons. simpl.
    rewrite (handleSignal_paired gw a b roomId) by done. simpl.
    split_and!; [done | |].
    - rewrite received_cons, decide_True by set_solver. simpl. by rewrite IH2.
    - intros x Hx. rewrite received_cons, decide_False by set_solver. by apply IH3. }
  split_and!; try done. intros x Hx. split; auto.
Qed.

Lemma relay_in_order_witness :
  received sockB
    (run (send_message sockA <$> [ {| text_of := "hi" |}; {| text_of := "there" |} ])
         (final pairing)).2 =
    [ receive_message "partner" "hi"; receive_message "partner" "there" ].
Proof.
  assert (reachable (final pairing)) as Hr.
  { apply reachable_final. decide_by_evaluation. }
  assert (sockA ≠ sockB) as Hne by done.
  destruct (relay_in_order (final pairing) sockA sockB (roomIdOf sockA sockB)
              [ {| text_of := "hi" |}; {| text_of := "there" |} ] [] Hr Hne
              eq_refl eq_refl) as (_ & _ & H & _).
  exact H.
Defined.

(** X9. Relay events are invisible to matchmaking: dropping every
    [signal] and [send_message] from a sequence of events leaves the
    state it ends in unchanged. *)
Theorem relay_transparent (evs : list InEvent) (gw : AppGateway) :
  (run (filter (λ ev, is_relay ev = false) evs) gw).1 = (run evs gw).1.
Proof.
  revert gw. induction evs as [|ev evs IH]; intros gw; [done |].
  destruct (is_relay ev) eqn:Hrel.
  - rewrite filter_cons_False by (by rewrite Hrel). rewrite run_cons. simpl.
    rewrite IH. destruct ev; try discriminate; simpl.
    + by rewrite handleSignal_state.
    + by rewrite handleMessage_state.
  - rewrite filter_cons_True by done. rewrite !run_cons. simpl. apply IH.
Qed.

(** ** After the partner has left *)

(** X10. Once [a] has left the session with [b] (by [leave_room] or by
    disconnecting), what [b] relays reaches nobody: the emission is
    made, to an empty room.  A [leave_room] from [b] then emits
    [partner_disconnected] to nobody as well, removes [b]'s entry and
    leaves [b] Idle, with neither [a] nor [b] in the directory. *)
Theorem survivor_recovers (gw : AppGateway) (ev : InEvent) (a b roomId : string)
    (body : MessageBody) :
  reachable gw → ev = leave_room a ∨ ev = disconnect a → a ≠ b →
  socketToRoom gw !! a = Some roomId → socketToRoom gw !! b = Some roomId →
  let alone := (dispatch ev gw).1 in
  let left := dispatch (leave_room b) alone in
  handleMessage b body alone =
    (alone, [ Emit ∅ (receive_message "partner" (text_of body)) ]) ∧
  left.2 = [ Emit ∅ partner_disconnected ] ∧
  socketToRoom left.1 !! a = None ∧
  socketToRoom left.1 !! b = None ∧
  in_state left.1 b Idle.
Proof.
  intros Hr Hev Hab Ha Hb. simpl.
  assert (∃ closed, dispatch ev gw = handleUserLeave a (with_server (closing closed a) gw))
    as [closed ->].
  { destruct Hev as [-> | ->].
    - exists false. apply dispatch_leave_room.
    - exists true. apply dispatch_disconnect. }
  destruct (departure closed gw a b roomId Hr Hab Ha Hb) as (_ & Ha' & Hb' & Hroom & _).
  set (alone := (handleUserLeave a (with_server (closing closed a) gw)).1) in *.
  assert (truthy roomId = true) as Htr
    by (eapply directory_room_truthy; [apply (reachable_consistent _ Hr) | done]).
  assert (handleLeaveRoom b alone =
    ({| server := Server.socketsLeave roomId (server alone);
        waitingQueue := filter (λ id, id ≠ b) (waitingQueue alone);
        socketToRoom := delete b (socketToRoom alone) |},
     [ Emit ∅ partner_disconnected ])) as ->.
  { unfold handleLeaveRoom, handleUserLeave, Server.to. by rewrite Hb', Htr, Hroom. }
  simpl. split; [|split; [done |split; [|split; [|split]]]]; simpl.
  - unfold handleMessage, Server.to_except. rewrite Hb', Htr, Hroom.
    do 3 f_equal. set_solver.
  - by rewrite lookup_delete_ne.
  - apply lookup_delete_eq.
  - apply filter_removes.
  - apply lookup_delete_eq.
Qed.

Lemma survivor_recovers_witness :
  (dispatch (leave_room sockB) (dispatch (disconnect sockA) (final pairing)).1).2 =
    [ Emit ∅ partner_disconnected ] ∧
  in_state (dispatch (leave_room sockB) (dispatch (disconnect sockA) (final pairing)).1).1
    sockB Idle.
Proof.
  assert (reachable (final pairing)) as Hr.
  { apply reachable_final. decide_by_evaluation. }
  assert (sockA ≠ sockB) as Hne by done.
  destruct (survivor_recovers (final pairing) (disconnect sockA) sockA sockB
              (roomIdOf sockA sockB) {| text_of := "hi" |} Hr (or_intror eq_refl) Hne
              eq_refl eq_refl) as (_ & Hout & _ & _ & Hidle).
  by split.
Defined.

(** ** Connecting and disconnecting *)

(** X11. After a [disconnect] nothing on the server holds the closed
    socket's identifier as a member: it is not connected, not in the
    queue, not a key of the directory and in no room; every other
    socket is connected exactly if it was. *)
Theorem disconnect_erases (gw : AppGateway) (id : string) :
  reachable gw → admissible (disconnect id) gw →
  let gw' := (dispatch (disconnect id) gw).1 in
  (id ∉ Server.sockets (server gw')) ∧
  (id ∉ waitingQueue gw') ∧
  socketToRoom gw' !! id = None ∧
  (∀ room, id ∉ Server.members room (server gw')) ∧
  (∀ x, x ≠ id → x ∈ Server.sockets (server gw') ↔ x ∈ Server.sockets (server gw)).
Proof.
  intros Hr Hadm gw'.
  assert (reachable gw') as Hr' by by apply reachable_step.
  pose proof (reachable_consistent _ Hr') as [_ Hl].
  assert (∀ x, x ∈ Server.sockets (server gw') ↔
               x ∈ Server.sockets (server gw) ∧ x ≠ id) as Hsock.
  { intros x. subst gw'. rewrite dispatch_disconnect.
    apply handleUserLeave_cases; simpl; intros; set_solver. }
  assert (id ∉ Server.sockets (server gw')) as Hgone by (rewrite Hsock; tauto).
  split_and!.
  - done.
  - intros Hq. by apply Hgone, (linked_queue gw' Hl).
  - destruct (socketToRoom gw' !! id) as [roomId|] eqn:Hdir; [|done].
    exfalso. by apply Hgone, (linked_directory gw' Hl id roomId).
  - intros room Hin. by apply Hgone, (linked_members gw' Hl room).
  - intros x Hx. rewrite Hsock. tauto.
Qed.

Lemma disconnect_erases_witness :
  sockA ∉ Server.sockets (server (dispatch (disconnect sockA) (final pairing)).1).
Proof.
  assert (reachable (final pairing)) as Hr.
  { apply reachable_final. decide_by_evaluation. }
  apply (disconnect_erases (final pairing) sockA Hr). decide_by_evaluation.
Defined.

(** X12. A connection starts Idle: [connect] emits nothing, leaves
    queue and directory as they are, and the new socket is neither
    queued nor in the directory and is in one room only, the one named
    by its own identifier. *)
Theorem connect_starts_idle (gw : AppGateway) (id : string) :
  reachable gw → admissible (connect id) gw →
  let result := dispatch (connect id) gw in
  result.2 = [] ∧
  waitingQueue result.1 = waitingQueue gw ∧
  socketToRoom result.1 = socketToRoom gw ∧
  in_state result.1 id Idle ∧
  (∀ room, id ∈ Server.members room (server result.1) ↔ room = id).
Proof.
  intros Hr [Hid Hfresh] result. pose proof (reachable_consistent _ Hr) as [_ Hl].
  subst result. simpl.
  assert (in_state (with_server (Server.onconnect id) gw) id Idle) as Hidle.
  { split; simpl.
    - intros Hq. by apply Hfresh, (linked_queue gw Hl).
    - destruct (socketToRoom gw !! id) as [roomId|] eqn:Hdir; [|done].
      exfalso. by apply Hfresh, (linked_directory gw Hl id roomId). }
  do 4 (split; [done |]).
  intros room. rewrite members_onconnect. simpl. case_decide as Hroom.
    + subst room. set_solver.
    + split; [|by intros ->]. intros Hin. exfalso.
      by apply Hfresh, (linked_members gw Hl room).
Qed.

Lemma connect_starts_idle_witness :
  in_state (dispatch (connect sockC) (final pairing)).1 sockC Idle.
Proof.
  assert (reachable (final pairing)) as Hr.
  { apply reachable_final. decide_by_evaluation. }
  apply (connect_starts_idle (final pairing) sockC Hr). decide_by_evaluation.
Defined.

(** ** Sessions do not overlap *)

(** X13. In a reachable state the directory maps at most two sockets
    to any one room, so two sessions never share a room.  This rests on
    socket identifiers having one length: for arbitrary strings the
    room name does not determine the pair. *)
Theorem no_third_member (gw : AppGateway) (a b x roomId : string) :
  (reachable gw → a ≠ b →
   socketToRoom gw !! a = Some roomId → socketToRoom gw !! b = Some roomId →
   socketToRoom gw !! x = Some roomId → x = a ∨ x = b) ∧
  roomIdOf "a" "b_c" = roomIdOf "a_b" "c".
Proof.
  split; [|done]. intros Hr Hab Ha Hb Hx.
  destruct (decide (x = a)) as [|Hxa]; [by left |].
  destruct (decide (x = b)) as [|Hxb]; [by right |].
  exfalso. pose proof (reachable_consistent _ Hr) as [_ Hl].
  apply (linked_no_third gw a b x roomId); auto.
Qed.

Lemma no_third_member_witness : sockB = sockA ∨ sockB = sockB.
Proof.
  assert (reachable (final pairing)) as Hr.
  { apply reachable_final. decide_by_evaluation. }
  assert (sockA ≠ sockB) as Hne by done.
  apply (proj1 (no_third_member (final pairing) sockA sockB sockB (roomIdOf sockA sockB))
           Hr Hne eq_refl eq_refl eq_refl).
Defined.

(** ** Symmetry until someone leaves *)

(** X14. As long as no mapped socket has left, the directory is
    symmetric: after an admissible run without [leave_room] and
    [disconnect] events, the two members of a session are mapped to it
    together or not at all. *)
Theorem symmetric_without_departure (evs : list InEvent) :
  admissible_run evs initial → Forall (λ ev, is_departure ev = false) evs →
  symmetric (final evs).
Proof.
  unfold final.
  generalize initial, reachable_initial, symmetric_initial.
  induction evs as [|ev evs IH]; intros gw Hr Hsym Hadm Hall; [done |].
  destruct Hadm as [Hev Hevs]. apply Forall_cons in Hall as [Hdep Hall].
  rewrite run_cons. simpl. apply IH; try done.
  - by apply reachable_step.
  - apply symmetric_dispatch; try done. by destruct ev.
Qed.

Lemma symmetric_without_departure_witness : symmetric (final pairing).
Proof.
  apply symmetric_without_departure.
  - decide_by_evaluation.
  - by repeat constructor.
Defined.

(** * The page and the gateway together *)

Lemma run_single (ev : InEvent) (gw : AppGateway) : run [ev] gw = dispatch ev gw.
Proof. simpl. destruct (dispatch ev gw). by rewrite app_nil_r. Qed.

Lemma sockets_after_leave (closed : bool) (gw : AppGateway) (id x : string) :
  x ∈ Server.sockets (server (handleUserLeave id (with_server (closing closed id) gw)).1) ↔
  x ∈ Server.sockets (server gw) ∧ (closed = true → x ≠ id).
Proof. apply handleUserLeave_cases; simpl; intros; apply sockets_closing. Qed.

(** X15. A chat line typed on [a]'s page while [a] and [b] are mapped
    to one room ends up in both transcripts: [sendMessage] appends it
    as typed, untrimmed, to [a]'s transcript as [me] and clears the
    input; the gateway relays it without changing its state; [b]'s page
    appends the same text as [partner]; and nothing comes back to
    [a]'s page.  An input that trims to the empty string is not sent. *)
Theorem chat_reaches_both_transcripts (trim : string → string) (gw : AppGateway)
    (a b roomId : string) (ca cb : Client.t) :
  reachable gw → a ≠ b →
  socketToRoom gw !! a = Some roomId → socketToRoom gw !! b = Some roomId →
  let sent := Client.sendMessage trim ca in
  let relayed := run (Client.to_server a <$> sent.2) gw in
  (trim (Client.inputText ca) = EmptyString → sent = (ca, []) ∧ relayed = (gw, [])) ∧
  (trim (Client.inputText ca) ≠ EmptyString →
     Client.messages sent.1 =
       Client.messages ca ++
         [ {| Client.sender := Client.me; Client.text := Client.inputText ca |} ] ∧
     Client.inputText sent.1 = EmptyString ∧
     relayed.1 = gw ∧
     Client.messages (Client.deliver (received b relayed.2) cb) =
       Client.messages cb ++
         [ {| Client.sender := Client.partner; Client.text := Client.inputText ca |} ] ∧
     Client.deliver (received a relayed.2) sent.1 = sent.1).
Proof.
  intros Hr Hab Ha Hb. pose proof (reachable_consistent _ Hr) as Hc. simpl.
  unfold Client.sendMessage. split.
  - intros ->. by rewrite String.eqb_refl.
  - intros Hne. apply String.eqb_neq in Hne as ->. simpl.
    rewrite (handleMessage_paired gw a b roomId) by done. simpl.
    rewrite !received_cons. simpl.
    rewrite decide_True, decide_False by set_solver. done.
Qed.

Lemma chat_reaches_both_transcripts_witness :
  Client.messages
    (Client.deliver
       (received sockB
          (run (Client.to_server sockA <$>
                  (Client.sendMessage id
                     (Client.setInputText "hi"
                        (Client.setStatus Client.connected Client.mounted))).2)
               (final pairing)).2)
       Client.mounted) =
    Client.messages Client.mounted ++
      [ {| Client.sender := Client.partner;
           Client.text :=
             Client.inputText
               (Client.setInputText "hi"
                  (Client.setStatus Client.connected Client.mounted)) |} ].
Proof.
  assert (reachable (final pairing)) as Hr.
  { apply reachable_final. decide_by_evaluation. }
  assert (sockA ≠ sockB) as Hne by done.
  destruct (chat_reaches_both_transcripts id (final pairing) sockA sockB
              (roomIdOf sockA sockB)
              (Client.setInputText "hi" (Client.setStatus Client.connected Client.mounted))
              Client.mounted Hr Hne eq_refl eq_refl)
    as [_ Hsent].
  destruct Hsent as (_ & _ & _ & Hb & _); [done |]. exact Hb.
Defined.

(** X16. When [a] leaves the session with [b] through the page
    ([handleLeave], which emits [leave_room]), the gateway's
    [partner_disconnected] reaches both pages: each goes to [idle]
    with its peer connection closed and each transcript gains the line
    ["Partner disconnected."], the leaver's own included. *)
Theorem leave_notice_on_both_pages (gw : AppGateway) (a b roomId : string)
    (ca cb : Client.t) :
  reachable gw → a ≠ b →
  socketToRoom gw !! a = Some roomId → socketToRoom gw !! b = Some roomId →
  let left := Client.handleLeave ca in
  let handled := run (Client.to_server a <$> left.2) gw in
  let notice := {| Client.sender := Client.system; Client.text := "Partner disconnected." |} in
  let ca' := Client.deliver (received a handled.2) left.1 in
  let cb' := Client.deliver (received b handled.2) cb in
  ca' = {| Client.status := Client.idle;
           Client.messages := Client.messages ca ++ [notice];
           Client.inputText := Client.inputText ca;
           Client.peer := false |} ∧
  cb' = {| Client.status := Client.idle;
           Client.messages := Client.messages cb ++ [notice];
           Client.inputText := Client.inputText cb;
           Client.peer := false |}.
Proof.
  intros Hr Hab Ha Hb. simpl.
  destruct (departure false gw a b roomId Hr Hab Ha Hb) as (Hout & _).
  rewrite <- dispatch_leave_room in Hout.
  destruct (dispatch (leave_room a) gw) as [gw' out] eqn:Hd. simpl in Hout.
  change (handleLeaveRoom a gw) with (dispatch (leave_room a) gw). rewrite Hd, Hout.
  simpl. rewrite !received_cons. simpl.
  by rewrite !decide_True by set_solver.
Qed.

Lemma leave_notice_on_both_pages_witness :
  Client.deliver
    (received sockA
       (run (Client.to_server sockA <$> (Client.handleLeave Client.mounted).2)
            (final pairing)).2)
    (Client.handleLeave Client.mounted).1 =
  {| Client.status := Client.idle;
     Client.messages :=
       Client.messages Client.mounted ++
         [ {| Client.sender := Client.system; Client.text := "Partner disconnected." |} ];
     Client.inputText := Client.inputText Client.mounted;
     Client.peer := false |}.
Proof.
  assert (reachable (final pairing)) as Hr.
  { apply reachable_final. decide_by_evaluation. }
  assert (sockA ≠ sockB) as Hne by done.
  apply (leave_notice_on_both_pages (final pairing) sockA sockB
           (roomIdOf sockA sockB) Client.mounted Client.mounted Hr Hne eq_refl eq_refl).
Defined.

Lemma in_single (x : string) : x ∈ ({[x]} : gset string).
Proof. by apply elem_of_singleton. Qed.

Lemma in_pair_l (x y : string) : x ∈ ({[x; y]} : gset string).
Proof. apply elem_of_union_l, in_single. Qed.

Lemma in_pair_r (x y : string) : y ∈ ({[x; y]} : gset string).
Proof. apply elem_of_union_r, in_single. Qed.

Lemma not_in_single (x y : string) : x ≠ y → y ∉ ({[x]} : gset string).
Proof. intros Hne Hin. apply elem_of_singleton in Hin. congruence. Qed.

Lemma not_in_empty (x : string) : x ∉ (∅ : gset string).
Proof. apply not_elem_of_empty. Qed.

(** X17. The page of the member left behind.  After [a] has left the
    session with [b], [b]'s page is told and goes to [idle].  Pressing
    Start ([handleJoin]) then shows the search, but the gateway ignores
    the [join_queue] and answers nothing, so the page stays
    [searching].  Pressing Cancel ([handleLeave]) frees [b] at the
    gateway without any event for [b]'s page; the next Start is served:
    [b] is appended to an empty queue and the page keeps [searching],
    or is matched with the one who waits and the page shows
    [connected]. *)
Theorem survivor_page (gw : AppGateway) (ev : InEvent) (a b roomId : string)
    (cb : Client.t) :
  reachable gw → ev = leave_room a ∨ ev = disconnect a → a ≠ b →
  socketToRoom gw !! a = Some roomId → socketToRoom gw !! b = Some roomId →
  let departed := dispatch ev gw in
  let cb0 := Client.deliver (received b departed.2) cb in
  let start := Client.handleJoin cb0 in
  let ignored := run (Client.to_server b <$> start.2) departed.1 in
  let cb1 := Client.deliver (received b ignored.2) start.1 in
  let cancel := Client.handleLeave cb1 in
  let freed := run (Client.to_server b <$> cancel.2) ignored.1 in
  let cb2 := Client.deliver (received b freed.2) cancel.1 in
  let again := Client.handleJoin cb2 in
  let served := run (Client.to_server b <$> again.2) freed.1 in
  let cb3 := Client.deliver (received b served.2) again.1 in
  Client.status cb0 = Client.idle ∧
  ignored = (departed.1, []) ∧
  Client.status cb1 = Client.searching ∧
  received b freed.2 = [] ∧
  Client.status cb2 = Client.idle ∧
  received b served.2 =
    match waitingQueue gw with
    | [] => [ waiting_for_match ]
    | p :: _ => [ match_found (roomIdOf p b); is_initiator true ]
    end ∧
  Client.status cb3 =
    match waitingQueue gw with
    | [] => Client.searching
    | _ :: _ => Client.connected
    end.
Proof.
  intros Hr Hev Hab Ha Hb. pose proof (reachable_consistent _ Hr) as Hc.
  pose proof Hc as [Hbasic Hl].
  assert (a ∈ Server.sockets (server gw)) as Hasock
    by apply (linked_directory gw Hl a roomId Ha).
  assert (b ∈ Server.sockets (server gw)) as Hbsock
    by apply (linked_directory gw Hl b roomId Hb).
  assert (admissible ev gw) as Hadm by (by destruct Hev as [-> | ->]).
  assert (a ∉ waitingQueue gw) as Haq
    by (intros Hq; rewrite (basic_disjoint gw Hbasic a Hq) in Ha; done).
  assert (b ∉ waitingQueue gw) as Hbq
    by (intros Hq; rewrite (basic_disjoint gw Hbasic b Hq) in Hb; done).
  assert (truthy roomId = true) as Htr by by apply (directory_room_truthy gw a).
  assert (∃ closed, dispatch ev gw = handleUserLeave a (with_server (closing closed a) gw))
    as [closed Hform].
  { destruct Hev as [-> | ->].
    - exists false. apply dispatch_leave_room.
    - exists true. apply dispatch_disconnect. }
  destruct (departure closed gw a b roomId Hr Hab Ha Hb)
    as (Hout & _ & Hbdir & Hroom & Hignored).
  rewrite <- Hform in Hout, Hbdir, Hroom, Hignored.
  assert (reachable (dispatch ev gw).1) as Hr1 by by apply reachable_step.
  assert (b ∈ Server.sockets (server (dispatch ev gw).1)) as Hbsock1.
  { rewrite Hform. apply sockets_after_leave. split; [done | by intros _ ->]. }
  assert (waitingQueue (dispatch ev gw).1 = waitingQueue gw) as Hq1.
  { rewrite Hform. unfold handleUserLeave. simpl. rewrite Ha, Htr. simpl.
    by apply filter_absent. }
  set (alone := (dispatch ev gw).1) in *.
  assert (dispatch (leave_room b) alone =
    ({| server := Server.socketsLeave roomId (server alone);
        waitingQueue := waitingQueue gw;
        socketToRoom := delete b (socketToRoom alone) |},
     [ Emit ∅ partner_disconnected ])) as Hfreed.
  { simpl. unfold handleLeaveRoom, handleUserLeave, Server.to.
    rewrite Hbdir, Htr, Hroom, Hq1. by rewrite filter_absent. }
  assert (reachable (dispatch (leave_room b) alone).1) as Hr2
    by by apply reachable_step.
  set (free := (dispatch (leave_room b) alone).1) in *.
  assert (b ∈ Server.sockets (server free)) as Hbsock2
    by (subst free; by rewrite Hfreed).
  assert (in_state free b Idle) as Hidle.
  { subst free. rewrite Hfreed. split; simpl; [done | apply lookup_delete_eq]. }
  assert (waitingQueue free = waitingQueue gw) as Hq2
    by (subst free; by rewrite Hfreed).
  assert ((dispatch (join_queue b) free).2 =
    match waitingQueue gw with
    | [] => [ Emit {[b]} waiting_for_match ]
    | p :: _ => [ Emit {[p; b]} (match_found (roomIdOf p b));
                  Emit {[b]} (is_initiator true);
                  Emit {[p]} (is_initiator false) ]
    end) as Hserved.
  { simpl. rewrite join_queue_emissions, (joinPath_idle free b Hidle), Hq2 by done.
    by destruct (waitingQueue gw). }
  intros departed cb0 start ignored cb1 cancel freed cb2 again served cb3.
  assert (received b departed.2 = [ partner_disconnected ]) as Hrecv0.
  { subst departed. rewrite Hout, received_cons. simpl.
    rewrite decide_True by (destruct closed; [apply in_single | apply in_pair_r]).
    done. }
  assert (ignored = (alone, [])) as Hign.
  { transitivity (dispatch (join_queue b) alone);
      [exact (run_single _ _) | exact Hignored]. }
  assert (freed = dispatch (leave_room b) alone) as Hfr.
  { subst freed. rewrite Hign. exact (run_single _ _). }
  assert (served = dispatch (join_queue b) free) as Hsv.
  { subst served. rewrite Hfr. exact (run_single _ _). }
  assert (received b freed.2 = []) as Hrecv2.
  { rewrite Hfr, Hfreed. simpl.
    rewrite received_cons, decide_False by apply not_in_empty. done. }
  assert (received b served.2 =
    match waitingQueue gw with
    | [] => [ waiting_for_match ]
    | p :: _ => [ match_found (roomIdOf p b); is_initiator true ]
    end) as Hrecv3.
  { rewrite Hsv, Hserved. destruct (waitingQueue gw) as [|p rest] eqn:Hq.
    - rewrite received_cons, decide_True by apply in_single. done.
    - assert (p ≠ b) as Hpb by (intros ->; apply Hbq; left).
      rewrite !received_cons. simpl.
      rewrite decide_True by apply in_pair_r.
      rewrite decide_True by apply in_single.
      rewrite decide_False by by apply not_in_single. done. }
  split_and!.
  - subst cb0. by rewrite Hrecv0.
  - done.
  - subst cb1. by rewrite Hign.
  - done.
  - subst cb2. by rewrite Hrecv2.
  - done.
  - subst cb3. rewrite Hrecv3. by destruct (waitingQueue gw).
Qed.

Lemma survivor_page_witness :
  run (Client.to_server sockB <$>
         (Client.handleJoin
            (Client.deliver
               (received sockB (dispatch (disconnect sockA) (final pairing)).2)
               Client.mounted)).2)
      (dispatch (disconnect sockA) (final pairing)).1 =
    ((dispatch (disconnect sockA) (final pairing)).1, []).
Proof.
  assert (reachable (final pairing)) as Hr.
  { apply reachable_final. decide_by_evaluation. }
  assert (sockA ≠ sockB) as Hne by done.
  apply (survivor_page (final pairing) (disconnect sockA) sockA sockB
           (roomIdOf sockA sockB) Client.mounted Hr (or_intror eq_refl) Hne
           eq_refl eq_refl).
Defined.
